(** * The partition engine of [LOCAL_API] (src/id3_variants_training/local_API.py)

    A shallow embedding of the queries an ID3 driver runs against the
    genotype matrix: [create_split_path], [find_ignore_rows], [split_subset],
    [find_next_variant_counts], [get_target_set], [count_variants], and of the
    two constructors that fill the object, [create_variant_dict] and
    [read_user_mappings].

    Python values are modelled as follows.
    - [str] is [string]; a [dict] keyed by strings is a [gmap string _];
      a [list] is a [list], indexed with [!!].
    - A matrix entry and a direction are Python ints, here [Z].  The entries are
      the literals [0] and [1] appended by [create_variant_dict]; on those,
      [is not] and [!=] agree, so [is not] is modelled by disequality.
    - An exception is a value of [exn]; a method that can raise returns a
      [result].  [list.index] raises [ValueError], which is what the
      specification calls UnknownVariant. *)

From stdpp Require Import gmap strings list fin_maps sorting pretty.

#[local] Set Warnings "-clear-no-such-hyp".

Local Open Scope nat_scope.

(** ** Exceptions and the error monad *)

Inductive exn : Set :=
  | ValueError
  | IndexError
  | KeyError
  | StopIteration.

(** The names the specification gives to the failure of [list.index] on a
    variant name and to the failure of [split_line[6]] on a short line. *)
Definition UnknownVariant : exn := ValueError.
Definition MalformedMapping : exn := IndexError.

Inductive result (A : Type) : Type :=
  | Ok (a : A)
  | Err (e : exn).
Arguments Ok {A} a.
Arguments Err {A} e.

#[global] Instance result_ret : MRet result := λ A a, Ok a.
#[global] Instance result_bind : MBind result := λ A B f r,
  match r with
  | Ok a => f a
  | Err e => Err e
  end.
#[global] Instance result_fmap : FMap result := λ A B f r,
  match r with
  | Ok a => Ok (f a)
  | Err e => Err e
  end.

Definition is_Ok {A} (r : result A) : Prop := ∃ a, r = Ok a.

(** [for s in l: acc = f(acc, s)], stopping at the first exception. *)
Fixpoint for_each {A S : Type} (f : S → A → result S) (l : list A) (s : S)
  : result S :=
  match l with
  | [] => Ok s
  | a :: l' => s' ← f s a; for_each f l' s'
  end.

(** ** Python built-ins used by the class *)

Module Py.

(** [enumerate(l)], counting from [n]. *)
Fixpoint enumerate_from {A : Type} (n : nat) (l : list A) : list (nat * A) :=
  match l with
  | [] => []
  | a :: l' => (n, a) :: enumerate_from (S n) l'
  end.

Definition enumerate {A : Type} (l : list A) : list (nat * A) :=
  enumerate_from 0 l.

(** [l[i]] for a non-negative [i]. *)
Definition getitem {A : Type} (l : list A) (i : nat) : result A :=
  match l !! i with
  | Some a => Ok a
  | None => Err IndexError
  end.

(** [l.index(x)]: position of the first element equal to [x]. *)
Fixpoint index (l : list string) (x : string) : result nat :=
  match l with
  | [] => Err ValueError
  | y :: l' => if decide (y = x) then Ok 0 else S <$> index l' x
  end.

(** [dict.fromkeys(keys, v)]. *)
Definition fromkeys {V : Type} (keys : list string) (v : V) : gmap string V :=
  foldr (λ k d, <[k := v]> d) ∅ keys.

(** [d[k] += 1]: reads [d[k]] first, so a missing key raises. *)
Definition incr (d : gmap string nat) (k : string) : result (gmap string nat) :=
  match d !! k with
  | Some n => Ok (<[k := n + 1]> d)
  | None => Err KeyError
  end.

(** [d[k] = d.get(k, 0) + 1]. *)
Definition bump (d : gmap string nat) (k : string) : gmap string nat :=
  <[k := default 0 (d !! k) + 1]> d.

(** [sep.join(l)]. *)
Fixpoint join (sep : string) (l : list string) : string :=
  match l with
  | [] => ""
  | [s] => s
  | s :: l' => s +:+ sep +:+ join sep l'
  end.

(** [s.split('\t')]. *)
Fixpoint split_tab (s : string) : list string :=
  match s with
  | EmptyString => [""]
  | String c s' =>
      if Ascii.eqb c (Ascii.ascii_of_nat 9) then "" :: split_tab s'
      else match split_tab s' with
           | h :: t => String c h :: t
           | [] => [String c ""]
           end
  end.

(** [sorted(set(l))] on strings. *)
Definition sorted_set (l : list string) : list string :=
  merge_sort (λ a b, String.leb a b) (elements (list_to_set l : gset string)).

(** Truthiness of an optional string argument: [None] and [''] are false. *)
Definition truthy (s : option string) : option string :=
  match s with
  | Some "" => None
  | _ => s
  end.

End Py.

(** ** The object *)

Record LOCAL_API : Type := {
  variant_list : list (list Z);
  indiv_list : list string;
  popu_list : list string;
  variant_name_list : list string;
  ancestry_dict : gmap string string;
  ancestry_list : list string;
}.

(** What the class reads of a PyVCF record and of its calls. *)
Record Call : Type := { sample : string; GT : string }.
Record Variant : Type := { CHROM : string; POS : Z; samples : list Call }.

(** A tree node, of which only [split_path] is read. *)
Record Node : Type := { split_path : list string * list Z }.

(** ** Construction *)

(** The test of the source, [call['GT'] in ['0/0', '0|0', '.']], and the entry
    it appends. *)
Definition genotype_bit (gt : string) : Z :=
  if bool_decide (gt ∈ ["0/0"; "0|0"; "."]) then 0%Z else 1%Z.

(** The classification of a call, as the VCF format defines the [GT] field and
    not as the source tests it: a genotype lists one allele per copy of the
    chromosome, separated by [/] (unphased) or [|] (phased); the allele [0]
    is the reference allele and [.] stands for an allele that was not called.
    A call is a reference call when all its alleles are [0], and a missing
    one when all are [.]; [0/0], [0|0] and the haploid [0] are reference
    calls, [./.], [.|.] and the haploid [.] are missing ones. *)
Definition is_separator (c : Ascii.ascii) : bool :=
  Ascii.eqb c (Ascii.ascii_of_nat 47) || Ascii.eqb c (Ascii.ascii_of_nat 124).

Fixpoint alleles (gt : string) : list string :=
  match gt with
  | EmptyString => [""]
  | String c gt' =>
      if is_separator c then "" :: alleles gt'
      else match alleles gt' with
           | h :: t => String c h :: t
           | [] => [String c ""]
           end
  end.

Definition is_reference (gt : string) : bool :=
  forallb (String.eqb "0") (alleles gt).
Definition is_missing (gt : string) : bool :=
  forallb (String.eqb ".") (alleles gt).

Definition variant_name (variant : Variant) : string :=
  Py.join ":" [CHROM variant; pretty (POS variant - 1)%Z; pretty (POS variant)].

(** Inner loop of [create_variant_dict]: one call of one variant. *)
Definition record_call (variant_dict : gmap string (list Z)) (call : Call)
  : gmap string (list Z) :=
  let variant_dict :=
    <[sample call := default [] (variant_dict !! sample call)]> variant_dict in
  <[sample call := default [] (variant_dict !! sample call) ++ [genotype_bit (GT call)]]>
    variant_dict.

(** [create_variant_dict]: the state is [(self.variant_name_list, variant_dict)]. *)
Definition create_variant_dict (names : list string) (variants : list Variant)
  : list string * gmap string (list Z) :=
  foldl (λ '(names, variant_dict) variant,
           (names ++ [variant_name variant],
            foldl record_call variant_dict (samples variant)))
        (names, ∅) variants.

(** Loop body of [read_user_mappings]. *)
Definition read_line (variant_dict : gmap string (list Z)) (self : LOCAL_API)
    (line : string) : result LOCAL_API :=
  let split_line := Py.split_tab line in
  indiv_id ← Py.getitem split_line 1;
  population ← Py.getitem split_line 6;
  let self := {| variant_list := variant_list self;
                 indiv_list := indiv_list self;
                 popu_list := popu_list self;
                 variant_name_list := variant_name_list self;
                 ancestry_dict := <[indiv_id := population]> (ancestry_dict self);
                 ancestry_list := ancestry_list self |} in
  match variant_dict !! indiv_id with
  | Some row =>
      Ok {| variant_list := variant_list self ++ [row];
            indiv_list := indiv_list self ++ [indiv_id];
            popu_list := popu_list self ++ [population];
            variant_name_list := variant_name_list self;
            ancestry_dict := ancestry_dict self;
            ancestry_list := ancestry_list self |}
  | None => Ok self
  end.

Definition read_user_mappings (self : LOCAL_API)
    (variant_dict : gmap string (list Z)) (file : list string) : result LOCAL_API :=
  match file with
  | [] => Err StopIteration
  | _header :: lines =>
      self ← for_each (read_line variant_dict) lines self;
      Ok {| variant_list := variant_list self;
            indiv_list := indiv_list self;
            popu_list := popu_list self;
            variant_name_list := variant_name_list self;
            ancestry_dict := ancestry_dict self;
            ancestry_list :=
              Py.sorted_set (snd <$> map_to_list (ancestry_dict self)) |}
  end.

(** [__init__], given the records [fetch_variants] returned and the lines of the
    mapping file. *)
Definition init (variants : list Variant) (file : list string) : result LOCAL_API :=
  let '(names, variant_dict) := create_variant_dict [] variants in
  read_user_mappings
    {| variant_list := []; indiv_list := []; popu_list := [];
       variant_name_list := names; ancestry_dict := ∅; ancestry_list := [] |}
    variant_dict file.

(** ** Queries *)

Definition create_split_path (split_path : list string * list Z)
    (new_variant_name : string)
  : (list string * list Z) * (list string * list Z) :=
  let w_split_path := (split_path.1 ++ [new_variant_name], split_path.2 ++ [1%Z]) in
  let wo_split_path := (split_path.1 ++ [new_variant_name], split_path.2 ++ [0%Z]) in
  (w_split_path, wo_split_path).

Section queries.
Variable self : LOCAL_API.

(** Body of the inner loop of [find_ignore_rows]; [and] does not read the row
    of an index that is already flagged.  The source compares the entry and
    the direction with [is not], the identity of two [int] objects; it is
    rendered here as the inequality of their values.  The two agree whenever
    the entry is [0] or [1], which CPython keeps as single objects, hence on
    every matrix [create_variant_dict] builds ([bits] below); on other entries
    two equal values may be held by different objects, and a property that
    depends on the outcome of the test there is stated under [bits]. *)
Definition ignore_row (var_idx : nat) (direction : Z)
    (ignore_rows_idxs : list nat) (row : nat * list Z) : result (list nat) :=
  let '(idx, variants) := row in
  if bool_decide (idx ∈ ignore_rows_idxs) then Ok ignore_rows_idxs
  else
    v ← Py.getitem variants var_idx;
    if bool_decide (v ≠ direction) then Ok (ignore_rows_idxs ++ [idx])
    else Ok ignore_rows_idxs.

(** Body of the outer loop: one [(exc_var, direction)] of the path. *)
Definition ignore_constraint (ignore_rows_idxs : list nat)
    (constraint : string * Z) : result (list nat) :=
  let '(exc_var, direction) := constraint in
  var_idx ← Py.index (variant_name_list self) exc_var;
  for_each (ignore_row var_idx direction)
           (Py.enumerate (variant_list self)) ignore_rows_idxs.

Definition find_ignore_rows (split_path : list string * list Z)
  : result (list nat) :=
  for_each ignore_constraint (zip split_path.1 split_path.2) [].

(** Loop body of [split_subset]. *)
Definition split_row (ignore_rows_idxs : list nat) (split_var : option string)
    (dicts : gmap string nat * gmap string nat) (row : nat * list Z)
  : result (gmap string nat * gmap string nat) :=
  let '(idx, variants) := row in
  let '(w_variant_dict, wo_variant_dict) := dicts in
  if bool_decide (idx ∈ ignore_rows_idxs) then Ok dicts
  else
    popu ← Py.getitem (popu_list self) idx;
    match Py.truthy split_var with
    | Some split_var =>
        f_var_idx ← Py.index (variant_name_list self) split_var;
        v ← Py.getitem variants f_var_idx;
        if bool_decide (v = 1%Z) then
          w_variant_dict ← Py.incr w_variant_dict popu;
          Ok (w_variant_dict, wo_variant_dict)
        else
          wo_variant_dict ← Py.incr wo_variant_dict popu;
          Ok (w_variant_dict, wo_variant_dict)
    | None => Ok dicts
    end.

Definition split_subset (node : Node) (split_var : option string)
  : result (gmap string nat * gmap string nat) :=
  let split_path := split_path node in
  let w_variant_dict := Py.fromkeys (ancestry_list self) 0 in
  let wo_variant_dict := Py.fromkeys (ancestry_list self) 0 in
  ignore_rows_idxs ← find_ignore_rows split_path;
  for_each (split_row ignore_rows_idxs split_var)
           (Py.enumerate (variant_list self))
           (w_variant_dict, wo_variant_dict).

(** Inner loop body of [find_next_variant_counts]:
    [w_variant_list[idx2][popu] += 1] when the entry is [1]. *)
Definition count_entry (popu : string) (w_variant_list : list (gmap string nat))
    (entry : nat * Z) : result (list (gmap string nat)) :=
  let '(idx2, variant) := entry in
  if bool_decide (variant = 1%Z) then
    d ← Py.getitem w_variant_list idx2;
    d ← Py.incr d popu;
    Ok (<[idx2 := d]> w_variant_list)
  else Ok w_variant_list.

(** Outer loop body of [find_next_variant_counts]. *)
Definition count_row (ignore_rows_idxs : list nat)
    (w_variant_list : list (gmap string nat)) (row : nat * list Z)
  : result (list (gmap string nat)) :=
  let '(idx, variants) := row in
  if bool_decide (idx ∈ ignore_rows_idxs) then Ok w_variant_list
  else
    popu ← Py.getitem (popu_list self) idx;
    for_each (count_entry popu) (Py.enumerate variants) w_variant_list.

Definition find_next_variant_counts (split_path : list string * list Z)
  : result (list (gmap string nat)) :=
  let w_variant_list :=
    (λ _, Py.fromkeys (ancestry_list self) 0) <$> variant_name_list self in
  ignore_rows_idxs ← find_ignore_rows split_path;
  for_each (count_row ignore_rows_idxs)
           (Py.enumerate (variant_list self)) w_variant_list.

Definition get_target_set : gmap string nat :=
  foldl Py.bump (Py.fromkeys (ancestry_list self) 0) (popu_list self).

(** Inner loop body of [count_variants]. *)
Definition tally_entry (my_dict : gmap string nat) (entry : nat * Z)
  : result (gmap string nat) :=
  let '(idx, variant) := entry in
  if bool_decide (variant = 1%Z) then
    name ← Py.getitem (variant_name_list self) idx;
    Ok (Py.bump my_dict name)
  else Ok my_dict.

Definition count_variants : result (gmap string nat) :=
  for_each (λ my_dict variants,
              for_each tally_entry (Py.enumerate variants) my_dict)
           (variant_list self) ∅.

End queries.

Arguments Py.truthy : simpl never.
Arguments Py.incr : simpl never.
Arguments Py.bump : simpl never.
Arguments Py.getitem : simpl never.
Arguments ignore_row : simpl never.
Arguments ignore_constraint : simpl never.
Arguments split_row : simpl never.
Arguments count_entry : simpl never.
Arguments count_row : simpl never.
Arguments tally_entry : simpl never.
Arguments read_line : simpl never.

(** ** Data-model invariants

    The invariants the specification states for the genotype matrix and the
    ancestry catalog, as decidable predicates on the object. *)

(** Every row has one entry per variant name. *)
Definition rows_aligned (self : LOCAL_API) : Prop :=
  Forall (λ row : list Z, length row = length (variant_name_list self))
         (variant_list self).

(** One population label per row. *)
Definition popu_aligned (self : LOCAL_API) : Prop :=
  length (popu_list self) = length (variant_list self).

(** Every label of a row is a label of the universe. *)
Definition popu_known (self : LOCAL_API) : Prop :=
  Forall (λ popu, popu ∈ ancestry_list self) (popu_list self).

(** The rows that a list of ignored indices leaves eligible. *)
Definition eligible (self : LOCAL_API) (ignore_rows_idxs : list nat)
  : list (nat * list Z) :=
  filter (λ row, row.1 ∉ ignore_rows_idxs) (Py.enumerate (variant_list self)).

(** The labels of the eligible rows that satisfy [keep], in row order. *)
Definition labels_where (self : LOCAL_API) (keep : list Z → bool)
    (rows : list (nat * list Z)) : list string :=
  omap (λ row, if keep row.2 then popu_list self !! row.1 else None) rows.

(** Whether a row carries the variant of column [i]. *)
Definition carries (i : nat) (variants : list Z) : bool :=
  bool_decide (variants !! i = Some 1%Z).

(** Sum of the counts of a mapping. *)
Definition total (d : gmap string nat) : nat :=
  map_fold (λ _ n acc, n + acc) 0 d.

(** Per-label sum of two mappings. *)
Definition add_counts (d1 d2 : gmap string nat) : gmap string nat :=
  union_with (λ n1 n2, Some (n1 + n2)) d1 d2.

(** Number of occurrences of a label. *)
Definition occurrences (p : string) (labels : list string) : nat :=
  length (filter (λ q, q = p) labels).

(** The individual id of a line of the mapping file. *)
Definition line_id (line : string) : option string := Py.split_tab line !! 1.

(** ** Concrete objects

    The scenario of the specification: four individuals, two variants. *)
Definition scenario : LOCAL_API :=
  {| variant_list := [[1; 0]; [1; 1]; [0; 0]; [0; 1]]%Z;
     indiv_list := ["i0"; "i1"; "i2"; "i3"];
     popu_list := ["A"; "A"; "B"; "B"];
     variant_name_list := ["V1"; "V2"];
     ancestry_dict := list_to_map [("i0", "A"); ("i1", "A"); ("i2", "B"); ("i3", "B")];
     ancestry_list := ["A"; "B"] |}.

(** Two individuals, neither of which carries the first variant. *)
Definition no_carrier : LOCAL_API :=
  {| variant_list := [[0; 1]; [0; 0]]%Z;
     indiv_list := ["i0"; "i1"];
     popu_list := ["A"; "B"];
     variant_name_list := ["V1"; "V2"];
     ancestry_dict := list_to_map [("i0", "A"); ("i1", "B")];
     ancestry_list := ["A"; "B"] |}.

(** A matrix outside the data model: the second row has no entries. *)
Definition ragged : LOCAL_API :=
  {| variant_list := [[1; 0]; []]%Z;
     indiv_list := ["i0"; "i1"];
     popu_list := ["A"; "B"];
     variant_name_list := ["V1"; "V2"];
     ancestry_dict := list_to_map [("i0", "A"); ("i1", "B")];
     ancestry_list := ["A"; "B"] |}.

(** A line of a tab-delimited file. *)
Definition tsv (fields : list string) : string :=
  Py.join (String (Ascii.ascii_of_nat 9) "") fields.

(** One record with one sample, and a mapping file that lists that sample
    twice, under two populations. *)
Definition one_variant : list Variant :=
  [{| CHROM := "1"; POS := 100;
      samples := [{| sample := "HG1"; GT := "0|1" |}] |}].

(** One record with two diploid individuals that were not called, a haploid
    individual with the reference allele, a carrier and a diploid individual
    with two reference alleles. *)
Definition uncalled : list Variant :=
  [{| CHROM := "1"; POS := 100;
      samples := [{| sample := "HG1"; GT := "./." |};
                  {| sample := "HG2"; GT := ".|." |};
                  {| sample := "HG3"; GT := "0" |};
                  {| sample := "HG4"; GT := "0|1" |};
                  {| sample := "HG5"; GT := "0|0" |}] |}].

Definition relisted_mapping : list string :=
  [tsv ["family"; "individual"; "c2"; "c3"; "c4"; "c5"; "population"; "c7"];
   tsv ["F1"; "HG1"; "0"; "0"; "1"; "0"; "GBR"; "x"];
   tsv ["F1"; "HG1"; "0"; "0"; "1"; "0"; "FIN"; "x"]].

(** The same file with the second listing removed. *)
Definition plain_mapping : list string :=
  [tsv ["family"; "individual"; "c2"; "c3"; "c4"; "c5"; "population"; "c7"];
   tsv ["F1"; "HG1"; "0"; "0"; "1"; "0"; "GBR"; "x"]].

(** A dictionary that has every label of the universe as a key. *)
Definition has_universe (self : LOCAL_API) (d : gmap string nat) : Prop :=
  ∀ p, p ∈ ancestry_list self → is_Some (d !! p).

(** The distribution of the eligible rows that satisfy [keep]: what the
    aggregator and the scanner are expected to compute. *)
Definition counts_where (self : LOCAL_API) (keep : list Z → bool)
    (ignore_rows_idxs : list nat) : gmap string nat :=
  foldl Py.bump (Py.fromkeys (ancestry_list self) 0)
        (labels_where self keep (eligible self ignore_rows_idxs)).

Arguments labels_where : simpl never.
Arguments eligible : simpl never.

(** A matrix outside the data model: a row has a [1] beyond the last named
    column. *)
Definition overlong : LOCAL_API :=
  {| variant_list := [[1; 0; 1]]%Z;
     indiv_list := ["i0"];
     popu_list := ["A"];
     variant_name_list := ["V1"; "V2"];
     ancestry_dict := list_to_map [("i0", "A")];
     ancestry_list := ["A"] |}.

(** A mapping file whose second line has three fields only. *)
Definition short_mapping : list string :=
  [tsv ["family"; "individual"; "c2"; "c3"; "c4"; "c5"; "population"; "c7"];
   tsv ["F1"; "HG1"; "0"]].

(** The object before the mapping file is read, and after [plain_mapping]. *)
Definition unread_object : LOCAL_API :=
  {| variant_list := []; indiv_list := []; popu_list := [];
     variant_name_list := ["1:99:100"]; ancestry_dict := ∅; ancestry_list := [] |}.

Definition plain_object : LOCAL_API :=
  {| variant_list := [[1%Z]]; indiv_list := ["HG1"]; popu_list := ["GBR"];
     variant_name_list := ["1:99:100"];
     ancestry_dict := {[ "HG1" := "GBR" ]};
     ancestry_list := ["GBR"] |}.

(** A mapping of counts written as a list of pairs. *)
Definition counts (pairs : list (string * nat)) : gmap string nat :=
  list_to_map pairs.

(** ** Notions used by the further properties *)

(** A row meets a constraint of a path: it holds the direction in the column
    of the name. *)
Definition satisfies (self : LOCAL_API) (c : string * Z) (variants : list Z)
  : Prop :=
  ∃ j, Py.index (variant_name_list self) c.1 = Ok j ∧ variants !! j = Some c.2.

(** Every entry of the matrix is [0] or [1]. *)
Definition bits (self : LOCAL_API) : Prop :=
  Forall (Forall (λ v : Z, v = 0%Z ∨ v = 1%Z)) (variant_list self).

(** Number of entries [1] in a list of rows. *)
Definition ones (rows : list (list Z)) : nat :=
  length (filter (λ v : Z, v = 1%Z) (mjoin rows)).

(** The population of a line of the mapping file. *)
Definition line_population (line : string) : option string :=
  Py.split_tab line !! 6.

(** The pair [(id, population)] of a line that has both fields. *)
Definition line_entry (line : string) : option (string * string) :=
  indiv_id ← line_id line; population ← line_population line;
  Some (indiv_id, population).

(** The pairs of the lines whose individual has genotype data. *)
Definition kept_entries (variant_dict : gmap string (list Z))
    (entries : list (string * string)) : list (string * string) :=
  filter (λ entry, is_Some (variant_dict !! entry.1)) entries.

(** The samples of a record, in call order. *)
Definition sample_names (variant : Variant) : list string :=
  sample <$> samples variant.

(** * Lemmas *)

(** ** The error monad *)

Lemma bind_Ok_inv {A B} (r : result A) (f : A → result B) b :
  r ≫= f = Ok b → ∃ a, r = Ok a ∧ f a = Ok b.
Proof. destruct r as [a|e]; [eauto | discriminate]. Qed.

Lemma bind_Err_inv {A B} (r : result A) (f : A → result B) e :
  r ≫= f = Err e → r = Err e ∨ ∃ a, r = Ok a ∧ f a = Err e.
Proof.
  destruct r as [a|e']; intros H; [right; eauto | left].
  by injection H as ->.
Qed.

Lemma for_each_app {A S} (f : S → A → result S) l1 l2 s :
  for_each f (l1 ++ l2) s = for_each f l1 s ≫= for_each f l2.
Proof.
  revert s. induction l1 as [|a l1 IH]; intros s; [done|].
  simpl. destruct (f s a) as [s'|e]; [apply IH | done].
Qed.

Lemma for_each_snoc {A S} (f : S → A → result S) l a s :
  for_each f (l ++ [a]) s = for_each f l s ≫= λ s', f s' a.
Proof.
  rewrite for_each_app. destruct (for_each f l s) as [s'|e]; [|done].
  simpl. by destruct (f s' a).
Qed.

(** ** Built-ins *)

Lemma enumerate_from_lookup {A} (l : list A) n i :
  Py.enumerate_from n l !! i = (λ a, (n + i, a)) <$> l !! i.
Proof.
  revert n i. induction l as [|a l IH]; intros n [|i]; simpl; try done.
  - by rewrite Nat.add_0_r.
  - rewrite IH. by replace (S n + i) with (n + S i) by lia.
Qed.

Lemma enumerate_from_fst {A} (l : list A) n :
  (Py.enumerate_from n l).*1 = seq n (length l).
Proof. revert n. induction l as [|a l IH]; intros n; simpl; [done | by rewrite IH]. Qed.

Lemma enumerate_from_elem {A} (l : list A) n i a :
  (i, a) ∈ Py.enumerate_from n l → n ≤ i < n + length l ∧ l !! (i - n) = Some a.
Proof.
  intros [j Hj]%list_elem_of_lookup_1. rewrite enumerate_from_lookup in Hj.
  destruct (l !! j) as [a'|] eqn:Ha; simplify_eq/=.
  apply lookup_lt_Some in Ha as Hlt.
  split; [lia|]. by replace (n + j - n) with j by lia.
Qed.

Lemma enumerate_elem {A} (l : list A) i a :
  (i, a) ∈ Py.enumerate l ↔ l !! i = Some a.
Proof.
  split.
  - intros [_ H]%enumerate_from_elem. by rewrite Nat.sub_0_r in H.
  - intros H. apply list_elem_of_lookup_2 with i.
    unfold Py.enumerate. by rewrite enumerate_from_lookup, H.
Qed.

Lemma getitem_Ok {A} (l : list A) i a : Py.getitem l i = Ok a ↔ l !! i = Some a.
Proof. unfold Py.getitem. destruct (l !! i); naive_solver. Qed.

Lemma getitem_lt {A} (l : list A) i : i < length l → is_Ok (Py.getitem l i).
Proof.
  intros [a Ha]%lookup_lt_is_Some. exists a. by apply getitem_Ok.
Qed.

Lemma getitem_Err {A} (l : list A) i e : Py.getitem l i = Err e → e = IndexError.
Proof. unfold Py.getitem. destruct (l !! i); naive_solver. Qed.

Lemma index_Ok l x i :
  Py.index l x = Ok i → l !! i = Some x ∧ ∀ j, j < i → l !! j ≠ Some x.
Proof.
  revert i. induction l as [|y l IH]; intros i; simpl; [done|].
  case_decide as Hy.
  - intros [= <-]. split; [by subst | intros; lia].
  - destruct (Py.index l x) as [k|] eqn:Hk; [|done].
    intros [= <-]. pose proof (IH k eq_refl) as [H1 H2]. split; [done|].
    intros [|j] Hj; simpl; [naive_solver | apply H2; lia].
Qed.

Lemma index_elem l x : x ∈ l → ∃ i, Py.index l x = Ok i.
Proof.
  induction l as [|y l IH]; [by intros ?%elem_of_nil|].
  intros Hx. simpl. case_decide as Hy; [by eexists|].
  apply elem_of_cons in Hx as [->|Hx]; [done|].
  destruct (IH Hx) as [i ->]. by eexists.
Qed.

Lemma index_not_elem l x : x ∉ l → Py.index l x = Err ValueError.
Proof.
  induction l as [|y l IH]; [done|].
  intros [Hy Hx]%not_elem_of_cons. simpl.
  rewrite decide_False by done. by rewrite IH.
Qed.

Lemma index_Err l x e : Py.index l x = Err e → e = ValueError ∧ x ∉ l.
Proof.
  intros He. destruct (decide (x ∈ l)) as [Hx|Hx].
  - apply index_elem in Hx as [i Hi]. congruence.
  - rewrite index_not_elem in He by done. by simplify_eq.
Qed.

Lemma index_lt l x i : Py.index l x = Ok i → i < length l.
Proof. intros [H _]%index_Ok. by eapply lookup_lt_Some. Qed.

Lemma fromkeys_lookup {V} (keys : list string) (v : V) k :
  Py.fromkeys keys v !! k = if decide (k ∈ keys) then Some v else None.
Proof.
  induction keys as [|k' keys IH]; simpl.
  - apply lookup_empty.
  - destruct (decide (k' = k)) as [->|Hne].
    + by rewrite lookup_insert_eq, decide_True by left.
    + rewrite lookup_insert_ne, IH by done.
      repeat case_decide; try done; set_solver.
Qed.

Lemma fromkeys_dom {V} (keys : list string) (v : V) :
  dom (Py.fromkeys keys v) = list_to_set keys.
Proof.
  apply set_eq. intros k. rewrite elem_of_dom, fromkeys_lookup, elem_of_list_to_set.
  case_decide; [naive_solver | split; [by intros [? ?] | done]].
Qed.

(** ** The row filter *)

Section row_filter.
Variable self : LOCAL_API.

Lemma ignore_row_Ok var_idx direction ign idx variants ign' :
  ignore_row var_idx direction ign (idx, variants) = Ok ign' →
  ign' = ign ∨ (ign' = ign ++ [idx] ∧ idx ∉ ign).
Proof.
  unfold ignore_row. case_bool_decide as Hin; [naive_solver|].
  intros (v & _ & Hv)%bind_Ok_inv. case_bool_decide; naive_solver.
Qed.

Lemma ignore_row_total var_idx direction ign idx variants :
  var_idx < length variants →
  is_Ok (ignore_row var_idx direction ign (idx, variants)).
Proof.
  intros [v Hv]%getitem_lt. unfold ignore_row, is_Ok.
  case_bool_decide; [eauto|]. rewrite Hv. simpl.
  case_bool_decide; eauto.
Qed.

(** One pass over the rows only appends, keeps the list duplicate-free and
    only adds indices of the rows it visits. *)
Lemma ignore_rows_Ok var_idx direction rows ign ign' :
  for_each (ignore_row var_idx direction) rows ign = Ok ign' →
  ign `prefix_of` ign' ∧ (NoDup ign → NoDup ign') ∧
  (∀ i, i ∈ ign' → i ∈ ign ∨ i ∈ rows.*1).
Proof.
  revert ign. induction rows as [|[idx variants] rows IH]; intros ign; simpl.
  - intros [= <-]. naive_solver.
  - intros (ign1 & H1 & H2)%bind_Ok_inv.
    apply IH in H2 as (Hpre & Hnd & Hin).
    apply ignore_row_Ok in H1 as [->|[-> Hnew]].
    + split_and!; [done..|]. intros i Hi. destruct (Hin i Hi); set_solver.
    + split_and!.
      * etrans; [|done]. by apply prefix_app_r.
      * intros Hnd'. apply Hnd. apply NoDup_app. split_and!; [done| |apply NoDup_singleton].
        intros i Hi ->%list_elem_of_singleton. done.
      * intros i Hi. destruct (Hin i Hi) as [Hi'|Hi']; [|set_solver].
        apply elem_of_app in Hi' as [?| ->%list_elem_of_singleton]; set_solver.
Qed.

Lemma ignore_rows_total var_idx direction rows ign :
  Forall (λ row : nat * list Z, var_idx < length row.2) rows →
  is_Ok (for_each (ignore_row var_idx direction) rows ign).
Proof.
  intros Hrows. revert ign.
  induction Hrows as [|[idx variants] rows Hrow _ IH]; intros ign; simpl.
  - by eexists.
  - destruct (ignore_row_total var_idx direction ign idx variants Hrow) as [ign1 ->].
    apply IH.
Qed.

Lemma ignore_constraint_Ok ign constraint ign' :
  ignore_constraint self ign constraint = Ok ign' →
  constraint.1 ∈ variant_name_list self ∧
  ign `prefix_of` ign' ∧ (NoDup ign → NoDup ign') ∧
  (∀ i, i ∈ ign' → i ∈ ign ∨ i < length (variant_list self)).
Proof.
  destruct constraint as [exc_var direction]. unfold ignore_constraint.
  intros (var_idx & Hidx & Hscan)%bind_Ok_inv.
  apply ignore_rows_Ok in Hscan as (Hpre & Hnd & Hin). split_and!; [|done..|].
  - apply index_Ok in Hidx as [Hidx _]. by eapply list_elem_of_lookup_2.
  - intros i Hi. destruct (Hin i Hi) as [?|Hi']; [by left|right].
    unfold Py.enumerate in Hi'. rewrite enumerate_from_fst in Hi'.
    apply elem_of_seq in Hi'. lia.
Qed.

Lemma enumerate_rows_aligned var_idx :
  rows_aligned self → var_idx < length (variant_name_list self) →
  Forall (λ row : nat * list Z, var_idx < length row.2)
         (Py.enumerate (variant_list self)).
Proof.
  intros Hrows Hlt. apply Forall_forall. intros [idx variants] Hin. simpl.
  apply enumerate_elem in Hin.
  eapply Forall_lookup_1 in Hrows; [|done]. simpl in Hrows. lia.
Qed.

Lemma ignore_constraint_total ign constraint :
  rows_aligned self → constraint.1 ∈ variant_name_list self →
  is_Ok (ignore_constraint self ign constraint).
Proof.
  destruct constraint as [exc_var direction]. simpl.
  intros Hrows [var_idx Hidx]%index_elem.
  unfold ignore_constraint. rewrite Hidx. simpl.
  apply ignore_rows_total, enumerate_rows_aligned; [done|].
  by eapply index_lt.
Qed.

Lemma ignore_constraint_unknown ign constraint :
  constraint.1 ∉ variant_name_list self →
  ignore_constraint self ign constraint = Err ValueError.
Proof.
  destruct constraint as [exc_var direction]. simpl. intros Hx.
  unfold ignore_constraint. by rewrite index_not_elem.
Qed.

Lemma ignore_constraints_Ok constraints ign ign' :
  for_each (ignore_constraint self) constraints ign = Ok ign' →
  Forall (λ c, c.1 ∈ variant_name_list self) constraints ∧
  ign `prefix_of` ign' ∧ (NoDup ign → NoDup ign') ∧
  (∀ i, i ∈ ign' → i ∈ ign ∨ i < length (variant_list self)).
Proof.
  revert ign. induction constraints as [|c constraints IH]; intros ign; simpl.
  - intros [= <-]. naive_solver.
  - intros (ign1 & H1 & H2)%bind_Ok_inv.
    apply ignore_constraint_Ok in H1 as (Hc & Hpre1 & Hnd1 & Hin1).
    apply IH in H2 as (Hcs & Hpre2 & Hnd2 & Hin2).
    split_and!; [by constructor | by etrans | naive_solver | naive_solver].
Qed.

Lemma ignore_constraints_total constraints ign :
  rows_aligned self →
  Forall (λ c, c.1 ∈ variant_name_list self) constraints →
  is_Ok (for_each (ignore_constraint self) constraints ign).
Proof.
  intros Hrows Hcs. revert ign.
  induction Hcs as [|c constraints Hc _ IH]; intros ign; simpl.
  - by eexists.
  - destruct (ignore_constraint_total ign c Hrows Hc) as [ign1 ->]. apply IH.
Qed.

(** On an aligned matrix the filter can only fail on an unknown name. *)
Lemma ignore_constraints_unknown constraints ign :
  rows_aligned self →
  Exists (λ c, c.1 ∉ variant_name_list self) constraints →
  for_each (ignore_constraint self) constraints ign = Err ValueError.
Proof.
  intros Hrows Hcs. revert ign.
  induction Hcs as [c constraints Hc|c constraints _ IH]; intros ign; simpl.
  - by rewrite ignore_constraint_unknown.
  - destruct (decide (c.1 ∈ variant_name_list self)) as [Hc|Hc].
    + destruct (ignore_constraint_total ign c Hrows Hc) as [ign1 ->]. apply IH.
    + by rewrite ignore_constraint_unknown.
Qed.

Lemma find_ignore_rows_Ok split_path ign :
  find_ignore_rows self split_path = Ok ign →
  Forall (λ c, c.1 ∈ variant_name_list self) (zip split_path.1 split_path.2) ∧
  NoDup ign ∧ Forall (λ i, i < length (variant_list self)) ign.
Proof.
  intros (Hcs & _ & Hnd & Hin)%ignore_constraints_Ok. split_and!; [done| |].
  - apply Hnd, NoDup_nil_2.
  - apply Forall_forall. intros i Hi. destruct (Hin i Hi) as [?%elem_of_nil|?]; done.
Qed.

Lemma find_ignore_rows_Err split_path e :
  rows_aligned self → find_ignore_rows self split_path = Err e →
  e = ValueError ∧
  Exists (λ c, c.1 ∉ variant_name_list self) (zip split_path.1 split_path.2).
Proof.
  intros Hrows He.
  destruct (decide (Forall (λ c : string * Z, c.1 ∈ variant_name_list self)
                           (zip split_path.1 split_path.2))) as [Hcs|Hcs].
  - destruct (ignore_constraints_total _ [] Hrows Hcs) as [ign Hign].
    unfold find_ignore_rows in He. congruence.
  - apply not_Forall_Exists in Hcs; [|apply _]. split; [|done].
    unfold find_ignore_rows in He.
    rewrite (ignore_constraints_unknown _ _ Hrows Hcs) in He. congruence.
Qed.

(** On an aligned matrix, a path over known variants yields a duplicate-free
    list of valid row indices. *)
Lemma find_ignore_rows_valid split_path :
  rows_aligned self →
  Forall (λ c, c.1 ∈ variant_name_list self) (zip split_path.1 split_path.2) →
  ∃ ign, find_ignore_rows self split_path = Ok ign ∧ NoDup ign ∧
         Forall (λ i, i < length (variant_list self)) ign.
Proof.
  intros Hrows Hpath.
  destruct (ignore_constraints_total _ [] Hrows Hpath) as [ign Hign].
  exists ign. split; [done|]. by apply find_ignore_rows_Ok in Hign as (_ & ? & ?).
Qed.

(** Python's [zip] after one [append] on each side: one more pair. *)
Lemma zip_snoc {A B} (l1 : list A) (l2 : list B) a b :
  ∃ c, zip (l1 ++ [a]) (l2 ++ [b]) = zip l1 l2 ++ [c] ∧
       (length l1 = length l2 → c = (a, b)).
Proof.
  revert l2. induction l1 as [|a1 l1 IH]; intros [|b1 l2]; simpl.
  - by exists (a, b).
  - exists (a, b1). split; [by destruct l2 | done].
  - exists (a1, b). split; [by destruct l1 | done].
  - destruct (IH l2) as (c & -> & Hc). exists c. split; [done|]. auto.
Qed.

End row_filter.

(** ** Counting in dictionaries *)

Lemma filter_none {A} (P : A → Prop) `{!∀ x, Decision (P x)} (l : list A) :
  Forall (λ x, ¬ P x) l → filter P l = [].
Proof.
  induction 1 as [|x l Hx _ IH]; [done|].
  by rewrite filter_cons, decide_False.
Qed.

Lemma filter_all {A} (P : A → Prop) `{!∀ x, Decision (P x)} (l : list A) :
  Forall P l → filter P l = l.
Proof.
  induction 1 as [|x l Hx _ IH]; [done|].
  by rewrite filter_cons, decide_True, IH.
Qed.

Lemma bump_lookup d k k' :
  Py.bump d k !! k' =
  if decide (k = k') then Some (default 0 (d !! k) + 1) else d !! k'.
Proof.
  unfold Py.bump. case_decide as Hk.
  - subst. apply lookup_insert_eq.
  - by apply lookup_insert_ne.
Qed.

Lemma incr_bump d k : is_Some (d !! k) → Py.incr d k = Ok (Py.bump d k).
Proof. intros [n Hn]. unfold Py.incr, Py.bump. by rewrite Hn. Qed.

Lemma bump_is_Some d k k' : is_Some (d !! k') → is_Some (Py.bump d k !! k').
Proof. rewrite bump_lookup. case_decide; eauto. Qed.

Lemma tally_lookup d labels k :
  foldl Py.bump d labels !! k =
  if decide (k ∈ labels) then Some (default 0 (d !! k) + occurrences k labels)
  else d !! k.
Proof.
  revert d. induction labels as [|q labels IH]; intros d; simpl; [done|].
  rewrite IH, bump_lookup. unfold occurrences. rewrite filter_cons.
  destruct (decide (q = k)) as [->|Hne].
  - rewrite (decide_True (P := k ∈ k :: labels)) by left. simpl.
    case_decide; f_equal; [lia|].
    rewrite filter_none; [simpl; lia|]. apply Forall_forall. naive_solver.
  - case_decide as Hk.
    + rewrite decide_True by (by right). done.
    + rewrite decide_False; [done|]. by intros [?|?]%elem_of_cons.
Qed.

Lemma tally_is_Some d labels k :
  is_Some (d !! k) → is_Some (foldl Py.bump d labels !! k).
Proof. rewrite tally_lookup. case_decide; eauto. Qed.

(** A tally from the zero-filled universe, when every label is in it. *)
Lemma tally_fromkeys_lookup keys labels k :
  Forall (λ p, p ∈ keys) labels →
  foldl Py.bump (Py.fromkeys keys 0) labels !! k =
  if decide (k ∈ keys) then Some (occurrences k labels) else None.
Proof.
  intros Hl. rewrite tally_lookup, fromkeys_lookup.
  destruct (decide (k ∈ labels)) as [Hk|Hk].
  - rewrite Forall_forall in Hl. by rewrite !decide_True by auto.
  - case_decide; [|done]. f_equal. unfold occurrences.
    rewrite filter_none; [done|]. apply Forall_forall. naive_solver.
Qed.

Lemma total_insert d k n :
  total (<[k := n]> d) + default 0 (d !! k) = n + total d.
Proof.
  assert (Hcomm : ∀ (m : gmap string nat) (j1 j2 : string) (z1 z2 y : nat),
            j1 ≠ j2 → m !! j1 = Some z1 → m !! j2 = Some z2 →
            z1 + (z2 + y) = z2 + (z1 + y)) by (intros; lia).
  unfold total. rewrite <-insert_delete_eq.
  rewrite map_fold_insert_L; [|apply Hcomm|apply lookup_delete_eq].
  destruct (d !! k) as [m|] eqn:Hk; simpl.
  - rewrite (map_fold_delete_L _ _ k m d); [lia|apply Hcomm|done].
  - rewrite delete_id by done. lia.
Qed.

Lemma total_bump d k : total (Py.bump d k) = S (total d).
Proof. unfold Py.bump. pose proof (total_insert d k (default 0 (d !! k) + 1)). lia. Qed.

Lemma total_tally d labels : total (foldl Py.bump d labels) = total d + length labels.
Proof.
  revert d. induction labels as [|q labels IH]; intros d; simpl; [lia|].
  rewrite IH, total_bump. lia.
Qed.

Lemma total_fromkeys keys : total (Py.fromkeys keys 0) = 0.
Proof.
  induction keys as [|k keys IH]; simpl; [done|].
  pose proof (total_insert (Py.fromkeys keys 0) k 0). lia.
Qed.

Lemma occurrences_app p l1 l2 :
  occurrences p (l1 ++ l2) = occurrences p l1 + occurrences p l2.
Proof. unfold occurrences. by rewrite filter_app, length_app. Qed.

(** ** Labels of selected rows *)

Section labels.
Variable self : LOCAL_API.

Lemma labels_where_cons keep row rows :
  labels_where self keep (row :: rows) =
  (if keep row.2 then option_list (popu_list self !! row.1) else [])
    ++ labels_where self keep rows.
Proof.
  unfold labels_where. simpl.
  destruct (keep row.2); [|done]. by destruct (popu_list self !! row.1).
Qed.

(** With no condition on a row, the labels of all rows are [popu_list]. *)
Lemma labels_where_all_from n (rows : list (list Z)) :
  n + length rows ≤ length (popu_list self) →
  labels_where self (λ _, true) (Py.enumerate_from n rows) =
  take (length rows) (drop n (popu_list self)).
Proof.
  revert n. induction rows as [|row rows IH]; intros n Hlen; simpl in *; [done|].
  rewrite labels_where_cons. simpl.
  destruct (lookup_lt_is_Some_2 (popu_list self) n) as [p Hp]; [lia|].
  rewrite Hp, (drop_S _ _ _ Hp). simpl. f_equal. apply IH. lia.
Qed.

Lemma labels_where_all :
  popu_aligned self →
  labels_where self (λ _, true) (Py.enumerate (variant_list self)) = popu_list self.
Proof.
  intros Hlen. unfold Py.enumerate. rewrite labels_where_all_from.
  - rewrite drop_0, <-Hlen. apply firstn_all.
  - rewrite Hlen. lia.
Qed.

(** A condition and its negation split the labels of any rows. *)
Lemma labels_where_split keep rows p :
  occurrences p (labels_where self keep rows) +
  occurrences p (labels_where self (negb ∘ keep) rows) =
  occurrences p (labels_where self (λ _, true) rows).
Proof.
  induction rows as [|row rows IH]; [done|].
  rewrite !labels_where_cons, !occurrences_app. simpl.
  destruct (keep row.2); simpl; lia.
Qed.

Lemma labels_where_length keep rows :
  Forall (λ row : nat * list Z, row.1 < length (popu_list self)) rows →
  length (labels_where self keep rows) +
  length (labels_where self (negb ∘ keep) rows) = length rows.
Proof.
  induction 1 as [|row rows Hrow _ IH]; [done|].
  rewrite !labels_where_cons, !length_app. simpl.
  apply lookup_lt_is_Some_2 in Hrow as [p ->].
  destruct (keep row.2); simpl; lia.
Qed.

Lemma labels_where_known keep rows :
  popu_known self →
  Forall (λ p, p ∈ ancestry_list self) (labels_where self keep rows).
Proof.
  intros Hknown. apply Forall_forall. intros p Hp.
  unfold labels_where in Hp. apply list_elem_of_omap in Hp as (row & _ & Hrow).
  destruct (keep row.2); [|done].
  unfold popu_known in Hknown. rewrite Forall_forall in Hknown.
  apply Hknown. by eapply list_elem_of_lookup_2.
Qed.

(** Occurrences of a label among selected rows, as a count of rows. *)
Lemma occurrences_labels_where keep rows p :
  occurrences p (labels_where self keep rows) =
  length (filter (λ row : nat * list Z,
                    popu_list self !! row.1 = Some p ∧ keep row.2 = true) rows).
Proof.
  induction rows as [|row rows IH]; [done|].
  rewrite labels_where_cons, occurrences_app, IH, filter_cons.
  destruct (keep row.2); simpl.
  - destruct (popu_list self !! row.1) as [q|]; simpl.
    + unfold occurrences. rewrite filter_cons, filter_nil.
      destruct (decide (q = p)) as [->|Hne].
      * by rewrite decide_True.
      * rewrite decide_False; [done|]. naive_solver.
    + done.
  - rewrite decide_False; [done|]. naive_solver.
Qed.

Lemma eligible_nil : eligible self [] = Py.enumerate (variant_list self).
Proof.
  unfold eligible. apply filter_all, Forall_forall.
  intros row _. apply not_elem_of_nil.
Qed.

Lemma eligible_elem ign idx variants :
  (idx, variants) ∈ eligible self ign ↔
  (idx ∉ ign) ∧ (variant_list self !! idx = Some variants).
Proof.
  unfold eligible. rewrite list_elem_of_filter, enumerate_elem. naive_solver.
Qed.

End labels.

(** ** The aggregator *)

Section aggregator.
Variable self : LOCAL_API.

Lemma truthy_Some X : X ≠ "" → Py.truthy (Some X) = Some X.
Proof. by destruct X. Qed.

(** A row flagged by the filter is skipped. *)
Lemma split_row_ignored ign split_var dicts idx variants :
  idx ∈ ign → split_row self ign split_var dicts (idx, variants) = Ok dicts.
Proof.
  intros Hin. unfold split_row. destruct dicts as [w wo].
  by rewrite bool_decide_eq_true_2.
Qed.

(** An eligible row increments exactly one mapping, chosen by its entry. *)
Lemma split_row_eligible ign X i w wo idx variants p :
  idx ∉ ign → X ≠ "" → Py.index (variant_name_list self) X = Ok i →
  popu_list self !! idx = Some p → i < length variants →
  is_Some (w !! p) → is_Some (wo !! p) →
  split_row self ign (Some X) (w, wo) (idx, variants) =
  Ok (if carries i variants then (Py.bump w p, wo) else (w, Py.bump wo p)).
Proof.
  intros Hin HX Hi Hp [v Hv]%lookup_lt_is_Some_2 Hw Hwo. unfold split_row.
  rewrite bool_decide_eq_false_2 by done.
  apply getitem_Ok in Hp as ->. simpl. rewrite truthy_Some by done.
  rewrite Hi. simpl. unfold carries. rewrite Hv.
  apply getitem_Ok in Hv as ->. simpl.
  destruct (decide (v = 1%Z)) as [->|Hne].
  - rewrite !bool_decide_eq_true_2 by done. by rewrite incr_bump.
  - rewrite !bool_decide_eq_false_2 by congruence. by rewrite incr_bump.
Qed.

Lemma split_row_no_candidate ign split_var dicts idx variants :
  Py.truthy split_var = None → idx < length (popu_list self) →
  split_row self ign split_var dicts (idx, variants) = Ok dicts.
Proof.
  intros Hsv [p Hp]%lookup_lt_is_Some_2. unfold split_row. destruct dicts as [w wo].
  case_bool_decide; [done|].
  apply getitem_Ok in Hp as ->. simpl. by rewrite Hsv.
Qed.

Lemma split_rows_Ok ign X i rows w wo :
  X ≠ "" → Py.index (variant_name_list self) X = Ok i →
  Forall (λ row : nat * list Z,
            row.1 ∉ ign → i < length row.2 ∧
            ∃ p, popu_list self !! row.1 = Some p ∧ p ∈ ancestry_list self) rows →
  (∀ p, p ∈ ancestry_list self → is_Some (w !! p)) →
  (∀ p, p ∈ ancestry_list self → is_Some (wo !! p)) →
  for_each (split_row self ign (Some X)) rows (w, wo) =
  Ok (foldl Py.bump w
        (labels_where self (carries i) (filter (λ row, row.1 ∉ ign) rows)),
      foldl Py.bump wo
        (labels_where self (negb ∘ carries i) (filter (λ row, row.1 ∉ ign) rows))).
Proof.
  intros HX Hi Hrows. revert w wo.
  induction Hrows as [|[idx variants] rows Hrow _ IH]; intros w wo Hw Hwo; [done|].
  cbn [for_each]. rewrite filter_cons. simpl in *.
  destruct (decide (idx ∉ ign)) as [Hin|Hin].
  - destruct (Hrow Hin) as (Hlt & p & Hp & Hanc).
    rewrite (split_row_eligible ign X i w wo idx variants p) by auto.
    rewrite !labels_where_cons. simpl. rewrite Hp.
    destruct (carries i variants); simpl;
      (rewrite IH; [done|by eauto using bump_is_Some..]).
  - apply dec_stable in Hin. rewrite split_row_ignored by done. simpl. by apply IH.
Qed.

Lemma split_rows_no_candidate ign split_var rows dicts :
  Py.truthy split_var = None →
  Forall (λ row : nat * list Z, row.1 < length (popu_list self)) rows →
  for_each (split_row self ign split_var) rows dicts = Ok dicts.
Proof.
  intros Hsv. induction 1 as [|[idx variants] rows Hrow _ IH]; [done|].
  cbn [for_each]. by rewrite split_row_no_candidate.
Qed.

Lemma enumerate_popu_aligned :
  popu_aligned self →
  Forall (λ row : nat * list Z, row.1 < length (popu_list self))
         (Py.enumerate (variant_list self)).
Proof.
  intros Hlen. apply Forall_forall. intros [idx variants] Hin%enumerate_elem.
  simpl. rewrite Hlen. by eapply lookup_lt_Some.
Qed.

Lemma eligible_popu_aligned ign :
  popu_aligned self →
  Forall (λ row : nat * list Z, row.1 < length (popu_list self)) (eligible self ign).
Proof.
  intros Hlen. apply Forall_forall. intros row [_ Hrow]%list_elem_of_filter.
  revert row Hrow. apply Forall_forall. by apply enumerate_popu_aligned.
Qed.

Lemma fromkeys_ancestry (p : string) :
  p ∈ ancestry_list self → is_Some (Py.fromkeys (ancestry_list self) 0 !! p).
Proof. intros Hp. rewrite fromkeys_lookup, decide_True by done. eauto. Qed.

(** What [split_subset] returns for a real candidate, given the result of
    the filter. *)
Lemma split_subset_Ok node X i ign :
  rows_aligned self → popu_aligned self → popu_known self →
  X ≠ "" → Py.index (variant_name_list self) X = Ok i →
  find_ignore_rows self (split_path node) = Ok ign →
  split_subset self node (Some X) =
  Ok (counts_where self (carries i) ign, counts_where self (negb ∘ carries i) ign).
Proof.
  intros Hrows Hlen Hknown HX Hi Hign. unfold split_subset. rewrite Hign. simpl.
  rewrite (split_rows_Ok ign X i); [done..| |apply fromkeys_ancestry|apply fromkeys_ancestry].
  apply Forall_forall. intros [idx variants] Hin%enumerate_elem _. simpl. split.
  - eapply Forall_lookup_1 in Hrows; [|done]. simpl in Hrows.
    rewrite Hrows. by eapply index_lt.
  - destruct (lookup_lt_is_Some_2 (popu_list self) idx) as [p Hp].
    { rewrite Hlen. by eapply lookup_lt_Some. }
    exists p. split; [done|].
    eapply Forall_lookup_1 in Hknown; [|done]. done.
Qed.

Lemma split_subset_no_candidate node split_var ign :
  popu_aligned self → Py.truthy split_var = None →
  find_ignore_rows self (split_path node) = Ok ign →
  split_subset self node split_var =
  Ok (Py.fromkeys (ancestry_list self) 0, Py.fromkeys (ancestry_list self) 0).
Proof.
  intros Hlen Hsv Hign. unfold split_subset. rewrite Hign. simpl.
  apply split_rows_no_candidate; [done|]. by apply enumerate_popu_aligned.
Qed.

Lemma split_subset_filter_Err node split_var e :
  find_ignore_rows self (split_path node) = Err e →
  split_subset self node split_var = Err e.
Proof. intros Hign. unfold split_subset. by rewrite Hign. Qed.

Lemma counts_where_lookup keep ign p :
  popu_known self →
  counts_where self keep ign !! p =
  if decide (p ∈ ancestry_list self)
  then Some (length (filter (λ row : nat * list Z,
                               popu_list self !! row.1 = Some p ∧ keep row.2 = true)
                            (eligible self ign)))
  else None.
Proof.
  intros Hknown. unfold counts_where.
  rewrite tally_fromkeys_lookup by by apply labels_where_known.
  by rewrite occurrences_labels_where.
Qed.

Lemma counts_where_total keep ign :
  total (counts_where self keep ign) =
  length (labels_where self keep (eligible self ign)).
Proof. unfold counts_where. by rewrite total_tally, total_fromkeys. Qed.

End aggregator.

(** ** The scanner *)

Section scanner.
Variable self : LOCAL_API.

Lemma enumerate_from_snoc {A} n (l : list A) a :
  Py.enumerate_from n (l ++ [a]) = Py.enumerate_from n l ++ [(n + length l, a)].
Proof.
  revert n. induction l as [|b l IH]; intros n; simpl.
  - by rewrite Nat.add_0_r.
  - rewrite IH. by replace (S n + length l) with (n + S (length l)) by lia.
Qed.

Lemma carries_snoc j variants v :
  carries j (variants ++ [v]) =
  if decide (j = length variants) then bool_decide (v = 1%Z) else carries j variants.
Proof.
  unfold carries. case_decide as Hj.
  - subst. rewrite list_lookup_middle by done.
    apply bool_decide_ext. naive_solver.
  - destruct (decide (j < length variants)).
    + by rewrite lookup_app_l.
    + rewrite !lookup_ge_None_2; [done|lia|]. rewrite length_app. simpl. lia.
Qed.

(** The inner loop increments the dictionary of every column the row
    carries. *)
Lemma count_entries_Ok p variants (ws : list (gmap string nat)) :
  length variants ≤ length ws →
  Forall (λ d : gmap string nat, is_Some (d !! p)) ws →
  for_each (count_entry p) (Py.enumerate variants) ws =
  Ok (imap (λ j d, if carries j variants then Py.bump d p else d) ws).
Proof.
  intros Hlen Hws. induction variants as [|v variants IH] using rev_ind.
  - simpl. f_equal. apply list_eq. intros j. rewrite list_lookup_imap.
    by destruct (ws !! j).
  - rewrite length_app in Hlen. simpl in Hlen.
    unfold Py.enumerate in *. rewrite enumerate_from_snoc, for_each_snoc.
    rewrite IH by lia. simpl. unfold count_entry.
    destruct (lookup_lt_is_Some_2 ws (length variants)) as [d Hd]; [lia|].
    assert (carries (length variants) variants = false) as Hout.
    { unfold carries. rewrite lookup_ge_None_2 by lia. done. }
    case_bool_decide as Hv.
    + unfold Py.getitem. rewrite list_lookup_imap, Hd. simpl. rewrite Hout.
      rewrite incr_bump by (by eapply Forall_lookup_1 in Hws). simpl.
      f_equal. apply list_eq. intros j. rewrite list_lookup_imap.
      rewrite carries_snoc. destruct (decide (j = length variants)) as [->|Hne].
      * rewrite list_lookup_insert_eq by (rewrite length_imap; lia).
        rewrite Hd. simpl. by rewrite bool_decide_eq_true_2.
      * rewrite list_lookup_insert_ne by done. by rewrite list_lookup_imap.
    + f_equal. apply list_eq. intros j. rewrite !list_lookup_imap.
      rewrite carries_snoc. destruct (decide (j = length variants)) as [->|Hne]; [|done].
      by rewrite Hout, bool_decide_eq_false_2.
Qed.

Lemma count_row_ignored ign ws idx variants :
  idx ∈ ign → count_row self ign ws (idx, variants) = Ok ws.
Proof. intros Hin. unfold count_row. by rewrite bool_decide_eq_true_2. Qed.

Lemma count_row_eligible ign ws idx variants p :
  idx ∉ ign → popu_list self !! idx = Some p →
  length variants ≤ length ws →
  Forall (λ d : gmap string nat, is_Some (d !! p)) ws →
  count_row self ign ws (idx, variants) =
  Ok (imap (λ j d, if carries j variants then Py.bump d p else d) ws).
Proof.
  intros Hin Hp Hlen Hws. unfold count_row.
  rewrite bool_decide_eq_false_2 by done.
  apply getitem_Ok in Hp as ->. simpl. by apply count_entries_Ok.
Qed.

Lemma count_rows_Ok ign rows (ws : list (gmap string nat)) :
  Forall (λ row : nat * list Z,
            row.1 ∉ ign → length row.2 ≤ length ws ∧
            ∃ p, popu_list self !! row.1 = Some p ∧ p ∈ ancestry_list self) rows →
  Forall (λ d : gmap string nat, ∀ p, p ∈ ancestry_list self → is_Some (d !! p)) ws →
  for_each (count_row self ign) rows ws =
  Ok (imap (λ j d, foldl Py.bump d
              (labels_where self (carries j) (filter (λ row, row.1 ∉ ign) rows)))
           ws).
Proof.
  intros Hrows. revert ws Hrows.
  induction rows as [|[idx variants] rows IH]; intros ws Hrows Hws.
  - simpl. f_equal. apply list_eq. intros j. rewrite list_lookup_imap.
    by destruct (ws !! j).
  - apply Forall_cons in Hrows as [Hrow Hrows]. cbn [for_each].
    rewrite filter_cons. simpl in *.
    destruct (decide (idx ∉ ign)) as [Hin|Hin].
    + destruct (Hrow Hin) as (Hlt & p & Hp & Hanc).
      rewrite (count_row_eligible ign ws idx variants p); [|done..|].
      2:{ eapply Forall_impl; [done|]. naive_solver. }
      simpl. rewrite IH.
      * f_equal. apply list_eq. intros j. rewrite !list_lookup_imap.
        destruct (ws !! j) as [d|]; [|done]. simpl. f_equal.
        rewrite labels_where_cons. simpl. rewrite Hp.
        by destruct (carries j variants).
      * by rewrite length_imap.
      * apply Forall_forall. intros d' [j Hj]%list_elem_of_lookup_1 q Hq.
        rewrite list_lookup_imap in Hj.
        destruct (ws !! j) as [d|] eqn:Hd; [|done]. simpl in Hj.
        eapply Forall_lookup_1 in Hws; [|done].
        injection Hj as <-. destruct (carries j variants); auto using bump_is_Some.
    + apply dec_stable in Hin. rewrite count_row_ignored by done. simpl. by apply IH.
Qed.

(** What [find_next_variant_counts] returns, given the result of the
    filter: one distribution per column. *)
Lemma find_next_variant_counts_Ok split_path ign :
  rows_aligned self → popu_aligned self → popu_known self →
  find_ignore_rows self split_path = Ok ign →
  find_next_variant_counts self split_path =
  Ok (imap (λ j _, counts_where self (carries j) ign) (variant_name_list self)).
Proof.
  intros Hrows Hlen Hknown Hign. unfold find_next_variant_counts.
  rewrite Hign. simpl. rewrite count_rows_Ok.
  - f_equal. apply list_eq. intros j.
    rewrite !list_lookup_imap, list_lookup_fmap.
    by destruct (variant_name_list self !! j).
  - apply Forall_forall. intros [idx variants] Hin%enumerate_elem _. simpl. split.
    + eapply Forall_lookup_1 in Hrows; [|done]. simpl in Hrows.
      by rewrite length_fmap, Hrows.
    + destruct (lookup_lt_is_Some_2 (popu_list self) idx) as [p Hp].
      { rewrite Hlen. by eapply lookup_lt_Some. }
      exists p. split; [done|].
      eapply Forall_lookup_1 in Hknown; [|done]. done.
  - apply Forall_fmap, Forall_forall. intros _ _ p. simpl. apply fromkeys_ancestry.
Qed.

Lemma find_next_variant_counts_filter_Err split_path e :
  find_ignore_rows self split_path = Err e →
  find_next_variant_counts self split_path = Err e.
Proof. intros Hign. unfold find_next_variant_counts. by rewrite Hign. Qed.

End scanner.

(** ** Missing keys

    What the increments need: when every label of a row is a label of the
    universe, no query raises [KeyError], on any path and any matrix. *)

Lemma for_each_Ok_inv {A S} (Inv : S → Prop) (f : S → A → result S) l s s' :
  (∀ s a s', Inv s → f s a = Ok s' → Inv s') →
  Inv s → for_each f l s = Ok s' → Inv s'.
Proof.
  intros Hstep. revert s. induction l as [|a l IH]; intros s Hs; simpl.
  - by intros [= <-].
  - intros (s1 & H1 & H2)%bind_Ok_inv. eauto.
Qed.

Lemma for_each_Err_inv {A S} (Inv : S → Prop) (f : S → A → result S) l s e :
  (∀ s a s', Inv s → f s a = Ok s' → Inv s') →
  Inv s → for_each f l s = Err e →
  ∃ s0 a, Inv s0 ∧ a ∈ l ∧ f s0 a = Err e.
Proof.
  intros Hstep. revert s. induction l as [|a l IH]; intros s Hs; simpl; [done|].
  intros [H1|(s1 & H1 & H2)]%bind_Err_inv.
  - exists s, a. split_and!; [done|by left|done].
  - destruct (IH s1) as (s0 & a0 & ? & ? & ?); [by eauto..|].
    exists s0, a0. split_and!; [done|by right|done].
Qed.

Section missing_keys.
Variable self : LOCAL_API.
Hypothesis Hknown : popu_known self.

Lemma popu_lookup_known idx p :
  popu_list self !! idx = Some p → p ∈ ancestry_list self.
Proof. intros Hp. by eapply Forall_lookup_1 in Hknown. Qed.

Lemma incr_has_universe d p d' :
  has_universe self d → Py.incr d p = Ok d' → has_universe self d'.
Proof.
  unfold Py.incr. intros Hd. destruct (d !! p) as [n|]; [|done].
  intros [= <-] q Hq. destruct (decide (p = q)) as [->|Hne].
  - rewrite lookup_insert_eq. eauto.
  - rewrite lookup_insert_ne by done. by apply Hd.
Qed.

Lemma incr_no_KeyError d idx p :
  has_universe self d → popu_list self !! idx = Some p → Py.incr d p ≠ Err KeyError.
Proof.
  intros Hd Hp. destruct (Hd p) as [n Hn]; [by eapply popu_lookup_known|].
  unfold Py.incr. by rewrite Hn.
Qed.

Lemma split_row_has_universe ign split_var dicts row dicts' :
  has_universe self dicts.1 ∧ has_universe self dicts.2 →
  split_row self ign split_var dicts row = Ok dicts' →
  has_universe self dicts'.1 ∧ has_universe self dicts'.2.
Proof.
  destruct row as [idx variants], dicts as [w wo]. simpl. intros [Hw Hwo].
  unfold split_row. case_bool_decide; [by intros [= <-]|].
  intros (p & _ & Hrest)%bind_Ok_inv.
  destruct (Py.truthy split_var) as [X|]; [|by injection Hrest as <-].
  apply bind_Ok_inv in Hrest as (i & _ & Hrest).
  apply bind_Ok_inv in Hrest as (v & _ & Hrest).
  case_bool_decide; apply bind_Ok_inv in Hrest as (d & Hd & [= <-]); simpl;
    eauto using incr_has_universe.
Qed.

Lemma split_row_no_KeyError ign split_var dicts row :
  has_universe self dicts.1 ∧ has_universe self dicts.2 →
  split_row self ign split_var dicts row ≠ Err KeyError.
Proof.
  destruct row as [idx variants], dicts as [w wo]. simpl. intros [Hw Hwo].
  unfold split_row. case_bool_decide; [done|].
  intros [Hp|(p & Hp%getitem_Ok & Hrest)]%bind_Err_inv;
    [by apply getitem_Err in Hp|].
  destruct (Py.truthy split_var) as [X|]; [|done].
  apply bind_Err_inv in Hrest as [Hi|(i & _ & Hrest)];
    [by apply index_Err in Hi as [? _]|].
  apply bind_Err_inv in Hrest as [Hv|(v & _ & Hrest)];
    [by apply getitem_Err in Hv|].
  case_bool_decide;
    (apply bind_Err_inv in Hrest as [Hd|(d & _ & ?)]; [|done]);
    by eapply incr_no_KeyError in Hd.
Qed.

Lemma find_ignore_rows_no_KeyError split_path :
  find_ignore_rows self split_path ≠ Err KeyError.
Proof.
  unfold find_ignore_rows. intros Hign.
  apply (for_each_Err_inv (λ _, True)) in Hign as (ign & [x d] & _ & _ & Hc);
    [|done..].
  unfold ignore_constraint in Hc.
  apply bind_Err_inv in Hc as [Hi|(i & _ & Hscan)];
    [by apply index_Err in Hi as [? _]|].
  apply (for_each_Err_inv (λ _, True)) in Hscan
    as (ign' & [idx variants] & _ & _ & Hrow); [|done..].
  unfold ignore_row in Hrow. case_bool_decide; [done|].
  apply bind_Err_inv in Hrow as [Hv|(v & _ & Hrow)];
    [by apply getitem_Err in Hv|]. by case_bool_decide.
Qed.

Lemma split_subset_no_KeyError node split_var :
  split_subset self node split_var ≠ Err KeyError.
Proof.
  unfold split_subset.
  intros [Hign|(ign & Hign & Hloop)]%bind_Err_inv;
    [by apply find_ignore_rows_no_KeyError in Hign|].
  apply (for_each_Err_inv
           (λ dicts, has_universe self dicts.1 ∧ has_universe self dicts.2))
    in Hloop as (dicts & row & Hdicts & _ & Hrow).
  - by eapply split_row_no_KeyError.
  - intros dicts row dicts'. apply split_row_has_universe.
  - simpl. split; intros p Hp; by apply fromkeys_ancestry.
Qed.

Lemma count_entry_has_universe p ws entry ws' :
  Forall (has_universe self) ws → count_entry p ws entry = Ok ws' →
  Forall (has_universe self) ws'.
Proof.
  destruct entry as [idx2 v]. intros Hws. unfold count_entry.
  case_bool_decide; [|by intros [= <-]].
  intros (d & Hd%getitem_Ok & (d' & Hd' & [= <-])%bind_Ok_inv)%bind_Ok_inv.
  apply Forall_insert; [done|].
  eapply incr_has_universe; [|done]. by eapply Forall_lookup_1 in Hws.
Qed.

Lemma count_entry_no_KeyError idx p ws entry :
  Forall (has_universe self) ws → popu_list self !! idx = Some p →
  count_entry p ws entry ≠ Err KeyError.
Proof.
  destruct entry as [idx2 v]. intros Hws Hp. unfold count_entry.
  case_bool_decide; [|done].
  intros [Hd|(d & Hd%getitem_Ok & Hrest)]%bind_Err_inv;
    [by apply getitem_Err in Hd|].
  apply bind_Err_inv in Hrest as [Hd'|(d' & _ & ?)]; [|done].
  eapply incr_no_KeyError in Hd'; [done| |done].
  by eapply Forall_lookup_1 in Hws.
Qed.

Lemma count_row_has_universe ign ws row ws' :
  Forall (has_universe self) ws → count_row self ign ws row = Ok ws' →
  Forall (has_universe self) ws'.
Proof.
  destruct row as [idx variants]. intros Hws. unfold count_row.
  case_bool_decide; [by intros [= <-]|].
  intros (p & _ & Hloop)%bind_Ok_inv.
  eapply (for_each_Ok_inv (Forall (has_universe self))) in Hloop; [done| |done].
  intros ws0 entry ws1. apply count_entry_has_universe.
Qed.

Lemma count_row_no_KeyError ign ws row :
  Forall (has_universe self) ws → count_row self ign ws row ≠ Err KeyError.
Proof.
  destruct row as [idx variants]. intros Hws. unfold count_row.
  case_bool_decide; [done|].
  intros [Hp|(p & Hp%getitem_Ok & Hloop)]%bind_Err_inv;
    [by apply getitem_Err in Hp|].
  apply (for_each_Err_inv (Forall (has_universe self))) in Hloop
    as (ws0 & entry & Hws0 & _ & Hentry); [|by intros ws0 entry ws1; apply count_entry_has_universe|done].
  by eapply count_entry_no_KeyError in Hentry.
Qed.

Lemma find_next_variant_counts_no_KeyError split_path :
  find_next_variant_counts self split_path ≠ Err KeyError.
Proof.
  unfold find_next_variant_counts.
  intros [Hign|(ign & Hign & Hloop)]%bind_Err_inv;
    [by apply find_ignore_rows_no_KeyError in Hign|].
  apply (for_each_Err_inv (Forall (has_universe self)))
    in Hloop as (ws & row & Hws & _ & Hrow).
  - by eapply count_row_no_KeyError.
  - intros ws row ws'. apply count_row_has_universe.
  - apply Forall_fmap, Forall_forall. intros _ _ p Hp. simpl.
    by apply fromkeys_ancestry.
Qed.

End missing_keys.

(** * Properties of the queries *)

(** C1: on a well-formed object, for every split path and every variant [X]
    of [variant_name_list], the entry of [find_next_variant_counts] at the
    position of [X] is the first mapping of [split_subset] called with the
    same path and candidate [X]: the two calls return the same mapping or fail
    with the same error, and they return whenever the path names known
    variants only. *)
Theorem find_next_variant_counts_agrees_with_split_subset
    (self : LOCAL_API) (split_path : list string * list Z) (X : string) :
  rows_aligned self → popu_aligned self → popu_known self →
  X ∈ variant_name_list self → X ≠ "" →
  (w_variant_list ← find_next_variant_counts self split_path;
   i ← Py.index (variant_name_list self) X;
   Py.getitem w_variant_list i)
  = fst <$> split_subset self {| split_path := split_path |} (Some X)
  ∧ (Forall (λ c, c.1 ∈ variant_name_list self) (zip split_path.1 split_path.2) →
     is_Ok (split_subset self {| split_path := split_path |} (Some X))).
Proof.
  intros Hrows Hlen Hknown [i Hi]%index_elem HX.
  destruct (find_ignore_rows self split_path) as [ign|e] eqn:Hign.
  - rewrite (find_next_variant_counts_Ok self split_path ign) by done.
    rewrite (split_subset_Ok self {| split_path := split_path |} X i ign) by done.
    split; [|by eexists]. simpl. rewrite Hi. simpl.
    apply index_Ok in Hi as [Hi _]. unfold Py.getitem.
    by rewrite list_lookup_imap, Hi.
  - rewrite find_next_variant_counts_filter_Err with (e := e) by done.
    rewrite split_subset_filter_Err with (e := e) by done.
    split; [done|]. intros Hpath.
    destruct (ignore_constraints_total self _ [] Hrows Hpath) as [ign Hign'].
    unfold find_ignore_rows in Hign. congruence.
Qed.

(** C2: on a well-formed object, for every split path on which the row filter
    returns [ign] and every candidate [X] of [variant_name_list],
    [split_subset] returns two mappings that count, per label of the universe,
    the rows outside [ign] that carry [X], respectively do not carry it; rows
    in [ign] are counted nowhere, every other row exactly once, so the counts
    of both mappings add up to the number of eligible rows. *)
Theorem split_subset_counts_eligible_rows
    (self : LOCAL_API) (node : Node) (X : string) (ign : list nat) :
  rows_aligned self → popu_aligned self → popu_known self →
  X ∈ variant_name_list self → X ≠ "" →
  find_ignore_rows self (split_path node) = Ok ign →
  ∃ i w wo,
    Py.index (variant_name_list self) X = Ok i ∧
    split_subset self node (Some X) = Ok (w, wo) ∧
    (∀ p, p ∈ ancestry_list self →
       w !! p = Some (length (filter (λ row : nat * list Z,
                         popu_list self !! row.1 = Some p ∧ row.2 !! i = Some 1%Z)
                       (eligible self ign))) ∧
       wo !! p = Some (length (filter (λ row : nat * list Z,
                         popu_list self !! row.1 = Some p ∧ row.2 !! i ≠ Some 1%Z)
                       (eligible self ign)))) ∧
    (∀ p, p ∉ ancestry_list self → w !! p = None ∧ wo !! p = None) ∧
    total w + total wo = length (eligible self ign).
Proof.
  intros Hrows Hlen Hknown [i Hi]%index_elem HX Hign.
  exists i, (counts_where self (carries i) ign),
    (counts_where self (negb ∘ carries i) ign).
  split_and!; [done|by apply split_subset_Ok| | |].
  - intros p Hp. rewrite !counts_where_lookup, !decide_True by done.
    split; do 2 f_equal; apply list_filter_iff; intros [idx variants]; simpl;
      unfold carries; case_bool_decide; naive_solver.
  - intros p Hp. by rewrite !counts_where_lookup, !decide_False by done.
  - rewrite !counts_where_total. apply labels_where_length.
    by apply eligible_popu_aligned.
Qed.

(** C3: extending a split path by one constraint never shrinks the ignored
    set.  If the filter returns [ign] for the parent, then whatever it returns
    for either child of [create_split_path] starts with [ign], so contains
    every index of [ign], and leaves eligible only rows that were eligible;
    and on an aligned matrix it does return for both children when the new
    variant is known and the parent pairs every name with a direction. *)
Theorem find_ignore_rows_monotone
    (self : LOCAL_API) (parent : list string * list Z) (X : string)
    (ign : list nat) :
  find_ignore_rows self parent = Ok ign →
  (∀ child ign',
     child = (create_split_path parent X).1 ∨ child = (create_split_path parent X).2 →
     find_ignore_rows self child = Ok ign' →
     ign `prefix_of` ign' ∧ (∀ i, i ∈ ign → i ∈ ign') ∧
     (∀ row, row ∈ eligible self ign' → row ∈ eligible self ign)) ∧
  (rows_aligned self → X ∈ variant_name_list self →
   length parent.1 = length parent.2 →
   is_Ok (find_ignore_rows self (create_split_path parent X).1) ∧
   is_Ok (find_ignore_rows self (create_split_path parent X).2)).
Proof.
  intros Hparent.
  assert (Hstep : ∀ d, ∃ c,
    find_ignore_rows self (parent.1 ++ [X], parent.2 ++ [d]) =
      ignore_constraint self ign c ∧
    (length parent.1 = length parent.2 → c = (X, d))).
  { intros d. destruct (zip_snoc parent.1 parent.2 X d) as (c & Hzip & Hc).
    exists c. unfold find_ignore_rows in *. simpl. rewrite Hzip, for_each_snoc.
    by rewrite Hparent. }
  split.
  - intros child ign' Hchild Hign'.
    assert (∃ c, ignore_constraint self ign c = Ok ign') as [c Hc].
    { destruct Hchild as [->| ->]; simpl in Hign'.
      - destruct (Hstep 1%Z) as (c & Hc & _). exists c. congruence.
      - destruct (Hstep 0%Z) as (c & Hc & _). exists c. congruence. }
    apply ignore_constraint_Ok in Hc as (_ & Hpre & _).
    assert (∀ i, i ∈ ign → i ∈ ign') as Hsub.
    { intros i Hi. destruct Hpre as [k ->]. set_solver. }
    split_and!; [done..|].
    intros [idx variants]. rewrite !eligible_elem. naive_solver.
  - intros Hrows HX Hlen. split.
    + destruct (Hstep 1%Z) as (c & Hc & Hpair). simpl. rewrite Hc, (Hpair Hlen).
      by apply ignore_constraint_total.
    + destruct (Hstep 0%Z) as (c & Hc & Hpair). simpl. rewrite Hc, (Hpair Hlen).
      by apply ignore_constraint_total.
Qed.

(** C4: on a well-formed object, for every variant [X] of
    [variant_name_list], [get_target_set] is the per-label sum of the two
    mappings [split_subset] returns for the empty path and candidate [X];
    it gives a count to every label of the universe, and its counts add up to
    the number of rows. *)
Theorem get_target_set_is_root_distribution (self : LOCAL_API) (X : string) :
  rows_aligned self → popu_aligned self → popu_known self →
  X ∈ variant_name_list self → X ≠ "" →
  (∃ w wo,
     split_subset self {| split_path := ([], []) |} (Some X) = Ok (w, wo) ∧
     get_target_set self = add_counts w wo) ∧
  (∀ p, p ∈ ancestry_list self → is_Some (get_target_set self !! p)) ∧
  total (get_target_set self) = length (variant_list self).
Proof.
  intros Hrows Hlen Hknown [i Hi]%index_elem HX. split_and!.
  - eexists _, _. split; [by apply (split_subset_Ok self _ X i [])|].
    apply map_eq. intros p. unfold add_counts, get_target_set, counts_where.
    rewrite lookup_union_with.
    rewrite !tally_fromkeys_lookup by (done || by apply labels_where_known).
    case_decide; [|done]. simpl. f_equal.
    by rewrite labels_where_split, eligible_nil, labels_where_all.
  - intros p Hp. unfold get_target_set. by apply tally_is_Some, fromkeys_ancestry.
  - unfold get_target_set. by rewrite total_tally, total_fromkeys, Hlen.
Qed.

(** C7, as the code has it: when the split path pairs known variants only,
    [split_subset] without a candidate returns two mappings that hold [0] for
    every label of the universe and nothing else.  (A path that names an
    unknown variant makes the call fail before the mappings are returned.) *)
Theorem split_subset_without_candidate (self : LOCAL_API) (node : Node) :
  rows_aligned self → popu_aligned self →
  Forall (λ c, c.1 ∈ variant_name_list self)
         (zip (split_path node).1 (split_path node).2) →
  ∃ w wo,
    split_subset self node None = Ok (w, wo) ∧
    dom w = list_to_set (ancestry_list self) ∧
    dom wo = list_to_set (ancestry_list self) ∧
    (∀ p, p ∈ ancestry_list self → w !! p = Some 0 ∧ wo !! p = Some 0).
Proof.
  intros Hrows Hlen Hpath.
  destruct (ignore_constraints_total self _ [] Hrows Hpath) as [ign Hign].
  exists (Py.fromkeys (ancestry_list self) 0), (Py.fromkeys (ancestry_list self) 0).
  split_and!.
  - by apply split_subset_no_candidate with ign.
  - apply fromkeys_dom.
  - apply fromkeys_dom.
  - intros p Hp. by rewrite fromkeys_lookup, decide_True.
Qed.

(** C10, as the code has it: for every split path, [split_subset] with the
    empty string as candidate returns or raises exactly what it does without
    a candidate; when the path pairs known variants only, that is two all-zero
    mappings, although the empty string is no variant name. *)
Theorem split_subset_empty_string_candidate (self : LOCAL_API) (node : Node) :
  split_subset self node (Some "") = split_subset self node None ∧
  (rows_aligned self → popu_aligned self →
   Forall (λ c, c.1 ∈ variant_name_list self)
          (zip (split_path node).1 (split_path node).2) →
   split_subset self node (Some "") =
   Ok (Py.fromkeys (ancestry_list self) 0, Py.fromkeys (ancestry_list self) 0)).
Proof.
  split; [done|]. intros Hrows Hlen Hpath.
  destruct (ignore_constraints_total self _ [] Hrows Hpath) as [ign Hign].
  by apply split_subset_no_candidate with ign.
Qed.

(** ** Unknown variants *)

Section unknown.
Variable self : LOCAL_API.

(** With an unknown candidate, the loop of [split_subset] fails at the first
    eligible row, and not at all when there is none. *)
Lemma split_rows_unknown ign X rows dicts :
  X ∉ variant_name_list self → X ≠ "" →
  Forall (λ row : nat * list Z, row.1 < length (popu_list self)) rows →
  for_each (split_row self ign (Some X)) rows dicts =
  if decide (filter (λ row : nat * list Z, row.1 ∉ ign) rows = [])
  then Ok dicts else Err ValueError.
Proof.
  intros HX Hne. induction 1 as [|[idx variants] rows Hrow _ IH]; [done|].
  cbn [for_each]. rewrite filter_cons. simpl in *.
  destruct (decide (idx ∉ ign)) as [Hin|Hin].
  - rewrite decide_False by done. unfold split_row. destruct dicts as [w wo].
    rewrite bool_decide_eq_false_2 by done.
    apply lookup_lt_is_Some_2 in Hrow as [p Hp].
    apply getitem_Ok in Hp as ->. simpl.
    by rewrite truthy_Some, index_not_elem.
  - apply dec_stable in Hin. by rewrite split_row_ignored.
Qed.

End unknown.

(** C5, as the code has it.  The name lookup of a path constraint precedes the
    scan of the rows for that constraint, so a constraint on an unknown
    variant raises whatever the rows are; on an aligned matrix a path with
    such a constraint makes all three queries fail with UnknownVariant.  An
    unknown, non-empty candidate is looked up once per eligible row:
    [split_subset] fails with UnknownVariant when some row is eligible and
    returns the all-zero mappings when none is. *)
Theorem unknown_variant_raises
    (self : LOCAL_API) (node : Node) (split_var : option string) :
  (∀ ign c, c.1 ∉ variant_name_list self →
     ignore_constraint self ign c = Err UnknownVariant) ∧
  (rows_aligned self →
   Exists (λ c, c.1 ∉ variant_name_list self)
          (zip (split_path node).1 (split_path node).2) →
   find_ignore_rows self (split_path node) = Err UnknownVariant ∧
   split_subset self node split_var = Err UnknownVariant ∧
   find_next_variant_counts self (split_path node) = Err UnknownVariant) ∧
  (∀ X ign,
     popu_aligned self → X ∉ variant_name_list self → X ≠ "" →
     find_ignore_rows self (split_path node) = Ok ign →
     split_subset self node (Some X) =
     if decide (eligible self ign = [])
     then Ok (Py.fromkeys (ancestry_list self) 0, Py.fromkeys (ancestry_list self) 0)
     else Err UnknownVariant).
Proof.
  split_and!.
  - intros ign c Hc. by apply ignore_constraint_unknown.
  - intros Hrows Hpath.
    pose proof (ignore_constraints_unknown self _ [] Hrows Hpath) as Hign.
    split_and!; [done|by apply split_subset_filter_Err|
                 by apply find_next_variant_counts_filter_Err].
  - intros X ign Hlen HX Hne Hign. unfold split_subset. rewrite Hign. simpl.
    apply split_rows_unknown; [done..|]. by apply enumerate_popu_aligned.
Qed.

(** ** Variant frequencies *)

Section frequencies.
Variable self : LOCAL_API.

(** After one row: the count of every name whose column the row carries
    went up by one, all other entries are unchanged. *)
Lemma tally_entries_Ok variants my_dict :
  NoDup (variant_name_list self) →
  length variants ≤ length (variant_name_list self) →
  ∃ my_dict',
    for_each (tally_entry self) (Py.enumerate variants) my_dict = Ok my_dict' ∧
    (∀ i X, variant_name_list self !! i = Some X →
       my_dict' !! X = if carries i variants
                       then Some (default 0 (my_dict !! X) + 1)
                       else my_dict !! X) ∧
    (∀ X, X ∉ variant_name_list self → my_dict' !! X = my_dict !! X).
Proof.
  intros Hnd. induction variants as [|v variants IH] using rev_ind; intros Hlen.
  - exists my_dict. split_and!; [done| |done].
    intros i X _. unfold carries. by rewrite lookup_nil, bool_decide_eq_false_2.
  - rewrite length_app in Hlen. simpl in Hlen.
    destruct IH as (d1 & Hd1 & Hin & Hout); [lia|].
    unfold Py.enumerate in *. rewrite enumerate_from_snoc, for_each_snoc, Hd1.
    simpl. unfold tally_entry.
    assert (carries (length variants) variants = false) as Hlast.
    { unfold carries. rewrite lookup_ge_None_2 by lia. done. }
    case_bool_decide as Hv.
    + destruct (lookup_lt_is_Some_2 (variant_name_list self) (length variants))
        as [Y HY]; [lia|].
      apply getitem_Ok in HY as HY'. rewrite HY'. simpl.
      eexists. split_and!; [done| |].
      * intros i X HiX. rewrite carries_snoc, bump_lookup.
        destruct (decide (i = length variants)) as [->|Hne].
        -- assert (Y = X) as -> by congruence. rewrite decide_True by done.
           rewrite bool_decide_eq_true_2 by done.
           specialize (Hin _ _ HiX). rewrite Hlast in Hin. by rewrite Hin.
        -- rewrite decide_False; [by apply Hin|].
           intros ->. apply Hne. by eapply NoDup_lookup.
      * intros X HX. rewrite bump_lookup, decide_False; [by apply Hout|].
        intros ->. apply HX. by eapply list_elem_of_lookup_2.
    + exists d1. split_and!; [done| |done].
      intros i X HiX. rewrite carries_snoc.
      destruct (decide (i = length variants)) as [->|Hne]; [|by apply Hin].
      rewrite bool_decide_eq_false_2 by done.
      specialize (Hin _ _ HiX). by rewrite Hlast in Hin.
Qed.

Lemma tally_rows_Ok (rows : list (list Z)) my_dict :
  NoDup (variant_name_list self) →
  Forall (λ row : list Z, length row ≤ length (variant_name_list self)) rows →
  ∃ my_dict',
    for_each (λ my_dict variants,
                for_each (tally_entry self) (Py.enumerate variants) my_dict)
             rows my_dict = Ok my_dict' ∧
    (∀ i X, variant_name_list self !! i = Some X →
       my_dict' !! X =
       let n := length (filter (λ row, carries i row = true) rows) in
       if decide (n = 0) then my_dict !! X
       else Some (default 0 (my_dict !! X) + n)) ∧
    (∀ X, X ∉ variant_name_list self → my_dict' !! X = my_dict !! X).
Proof.
  intros Hnd Hrows. revert my_dict.
  induction Hrows as [|row rows Hrow _ IH]; intros my_dict.
  - exists my_dict. by split_and!.
  - destruct (tally_entries_Ok row my_dict Hnd Hrow) as (d1 & Hd1 & Hin1 & Hout1).
    destruct (IH d1) as (d2 & Hd2 & Hin2 & Hout2).
    exists d2. cbn [for_each]. rewrite Hd1. simpl. split_and!; [done| |].
    + intros i X HiX. rewrite (Hin2 _ _ HiX), (Hin1 _ _ HiX), filter_cons. simpl.
      destruct (carries i row) eqn:Hc.
      * rewrite !(decide_True (P := true = true)) by done. simpl.
        case_decide as Hn; [rewrite Hn|]; simpl; f_equal; lia.
      * by rewrite !(decide_False (P := false = true)) by done.
    + intros X HX. by rewrite (Hout2 _ HX), (Hout1 _ HX).
Qed.

End frequencies.

(** C8: with unique variant names and aligned rows, [count_variants] returns a
    mapping whose keys are exactly the names of the variants some row carries,
    and whose value at the name of column [i] is the number of rows of the
    whole matrix that have a [1] in column [i]. *)
Theorem count_variants_counts_carriers (self : LOCAL_API) :
  NoDup (variant_name_list self) → rows_aligned self →
  ∃ my_dict,
    count_variants self = Ok my_dict ∧
    (∀ X, X ∈ dom my_dict ↔
          ∃ i row, variant_name_list self !! i = Some X ∧
                   row ∈ variant_list self ∧ row !! i = Some 1%Z) ∧
    (∀ i X n, variant_name_list self !! i = Some X → my_dict !! X = Some n →
       n = length (filter (λ row : list Z, row !! i = Some 1%Z) (variant_list self))).
Proof.
  intros Hnd Hrows.
  destruct (tally_rows_Ok self (variant_list self) ∅ Hnd) as (d & Hd & Hin & Hout).
  { eapply Forall_impl; [exact Hrows|]. intros row Hrow. simpl in Hrow. lia. }
  assert (Hfilter : ∀ i,
    filter (λ row : list Z, carries i row = true) (variant_list self) =
    filter (λ row : list Z, row !! i = Some 1%Z) (variant_list self)).
  { intros i. apply list_filter_iff. intros row. unfold carries.
    case_bool_decide; naive_solver. }
  exists d. split_and!; [done| |].
  - intros X. rewrite elem_of_dom. split.
    + intros [n Hn]. destruct (decide (X ∈ variant_name_list self)) as [HX|HX].
      * apply list_elem_of_lookup_1 in HX as [i Hi]. exists i.
        rewrite (Hin _ _ Hi), lookup_empty, Hfilter in Hn. simpl in Hn.
        case_decide as Hz; [done|].
        destruct (filter _ _) as [|row rows] eqn:Hf; [done|].
        assert (row ∈ filter (λ row : list Z, row !! i = Some 1%Z) (variant_list self))
          as [? ?]%list_elem_of_filter by (rewrite Hf; left).
        by exists row.
      * by rewrite (Hout _ HX), lookup_empty in Hn.
    + intros (i & row & Hi & Hrow & Hone).
      rewrite (Hin _ _ Hi), lookup_empty, Hfilter. simpl.
      assert (row ∈ filter (λ row : list Z, row !! i = Some 1%Z) (variant_list self))
        as Hf by (by apply list_elem_of_filter).
      destruct (filter _ _) as [|row' rows]; [by apply elem_of_nil in Hf|].
      simpl. eauto.
  - intros i X n Hi Hn. rewrite (Hin _ _ Hi), lookup_empty, Hfilter in Hn.
    simpl in Hn. case_decide; [done|]. by injection Hn as <-.
Qed.

(** ** Construction of the matrix *)

Lemma alleles_nonempty gt : alleles gt ≠ [].
Proof.
  destruct gt as [|c gt]; simpl; [done|].
  destruct (is_separator c); [done|]. by destruct (alleles gt).
Qed.

Lemma alleles_singleton gt a : alleles gt = [a] → gt = a.
Proof.
  revert a. induction gt as [|c gt IH]; intros a; simpl.
  - by intros [= <-].
  - destruct (is_separator c).
    + intros [= _ Hrest]. by apply alleles_nonempty in Hrest.
    + destruct (alleles gt) as [|h t] eqn:Hgt; [by apply alleles_nonempty in Hgt|].
      intros [= <- ->]. by rewrite (IH h).
Qed.

Lemma alleles_pair gt a b :
  alleles gt = [a; b] → ∃ c, is_separator c = true ∧ gt = a +:+ String c b.
Proof.
  revert a. induction gt as [|c gt IH]; intros a; simpl; [done|].
  destruct (is_separator c) eqn:Hc.
  - intros [= <- Hrest%alleles_singleton]. exists c. by subst.
  - destruct (alleles gt) as [|h t] eqn:Hgt; [by apply alleles_nonempty in Hgt|].
    intros [= <- ->]. destruct (IH h eq_refl) as (c' & Hc' & ->). by exists c'.
Qed.

Lemma is_separator_cases c :
  is_separator c = true → String c "" = "/" ∨ String c "" = "|".
Proof.
  unfold is_separator. rewrite orb_true_iff, !Ascii.eqb_eq.
  intros [->| ->]; [by left|by right].
Qed.

(** What the source records as [0] is a reference call or a missing one. *)
Lemma genotype_bit_0_classified gt :
  genotype_bit gt = 0%Z → is_reference gt = true ∨ is_missing gt = true.
Proof.
  unfold genotype_bit. case_bool_decide as Hgt; [intros _|done].
  repeat (apply elem_of_cons in Hgt as [->|Hgt]);
    [by left|by left|by right|by apply elem_of_nil in Hgt].
Qed.

(** Of the reference calls, the diploid ones are recorded as [0], no other. *)
Lemma reference_recorded_0_iff gt :
  is_reference gt = true →
  (genotype_bit gt = 0%Z ↔ length (alleles gt) = 2).
Proof.
  intros Href. split.
  - unfold genotype_bit. case_bool_decide as Hgt; [intros _|done].
    repeat (apply elem_of_cons in Hgt as [->|Hgt]);
      [done|done|done|by apply elem_of_nil in Hgt].
  - intros Hlen. unfold is_reference in Href.
    destruct (alleles gt) as [|a [|b [|]]] eqn:Hal; try done.
    cbn [forallb] in Href. rewrite !andb_true_iff, !String.eqb_eq in Href.
    destruct Href as (<- & <- & _).
    apply alleles_pair in Hal as (c & Hc & ->).
    destruct (is_separator_cases c Hc) as [[= ->]|[= ->]]; done.
Qed.

(** Of the missing calls, the haploid one is recorded as [0], no other. *)
Lemma missing_recorded_0_iff gt :
  is_missing gt = true →
  (genotype_bit gt = 0%Z ↔ length (alleles gt) = 1).
Proof.
  intros Hmiss. split.
  - unfold genotype_bit. case_bool_decide as Hgt; [intros _|done].
    repeat (apply elem_of_cons in Hgt as [->|Hgt]);
      [done|done|done|by apply elem_of_nil in Hgt].
  - intros Hlen. unfold is_missing in Hmiss.
    destruct (alleles gt) as [|a [|]] eqn:Hal; try done.
    cbn [forallb] in Hmiss. rewrite andb_true_iff, String.eqb_eq in Hmiss.
    destruct Hmiss as (<- & _).
    by apply alleles_singleton in Hal as ->.
Qed.

Lemma record_call_lookup variant_dict call s :
  record_call variant_dict call !! s =
  if decide (sample call = s)
  then Some (default [] (variant_dict !! s) ++ [genotype_bit (GT call)])
  else variant_dict !! s.
Proof.
  unfold record_call. case_decide as Hs.
  - subst. by rewrite !lookup_insert_eq.
  - by rewrite !lookup_insert_ne.
Qed.

Lemma record_calls_lookup variant_dict calls s :
  foldl record_call variant_dict calls !! s =
  if decide (filter (λ c, sample c = s) calls = []) then variant_dict !! s
  else Some (default [] (variant_dict !! s)
             ++ (genotype_bit ∘ GT <$> filter (λ c, sample c = s) calls)).
Proof.
  revert variant_dict. induction calls as [|call calls IH]; intros variant_dict;
    [done|].
  simpl. rewrite IH, record_call_lookup, filter_cons.
  destruct (decide (sample call = s)) as [Hs|Hs]; [|done].
  rewrite (decide_False (P := _ :: _ = [])) by done. simpl.
  case_decide as Hrest; [by rewrite Hrest|]. by rewrite <-app_assoc.
Qed.

Lemma create_variant_dict_unfold names variants :
  create_variant_dict names variants =
  (names ++ (variant_name <$> variants),
   foldl record_call ∅ (mjoin (samples <$> variants))).
Proof.
  unfold create_variant_dict. generalize (∅ : gmap string (list Z)).
  revert names. induction variants as [|variant variants IH]; intros names d; simpl.
  - by rewrite app_nil_r.
  - by rewrite IH, foldl_app, <-app_assoc.
Qed.

Lemma variant_name_nonempty variant : variant_name variant ≠ "".
Proof. unfold variant_name. simpl. by destruct (CHROM variant). Qed.

(** C6: the entry [create_variant_dict] appends for a call is [0] if and only
    if the call is a reference call or a missing one.  Not so in the code.
    Each sample does get the row of the entries of its calls, in the order of
    the records, and an entry [0] is only ever appended for a reference or a
    missing call; but the entry is decided by looking the genotype string up
    in a list of three spellings, which holds the diploid reference calls and
    the haploid missing call only.  A reference call is recorded as [0]
    exactly when it is diploid and a missing call exactly when it is haploid:
    on the record [uncalled] the missing calls [./.] and [.|.] and the haploid
    reference call [0] are all recorded as [1], as the carrier [0|1] is. *)
Theorem unlisted_genotypes_recorded_as_1 :
  (∀ names variants s,
     let calls := filter (λ c, sample c = s) (mjoin (samples <$> variants)) in
     (create_variant_dict names variants).2 !! s =
     if decide (calls = []) then None else Some (genotype_bit ∘ GT <$> calls)) ∧
  (∀ gt, genotype_bit gt = 0%Z → is_reference gt = true ∨ is_missing gt = true) ∧
  (∀ gt, is_reference gt = true →
         (genotype_bit gt = 0%Z ↔ length (alleles gt) = 2)) ∧
  (∀ gt, is_missing gt = true →
         (genotype_bit gt = 0%Z ↔ length (alleles gt) = 1)) ∧
  (is_missing "./." = true ∧ is_missing ".|." = true ∧ is_reference "0" = true) ∧
  create_variant_dict [] uncalled =
    (["1:99:100"],
     list_to_map [("HG1", [1%Z]); ("HG2", [1%Z]); ("HG3", [1%Z]);
                  ("HG4", [1%Z]); ("HG5", [0%Z])]).
Proof.
  split_and!.
  - intros names variants s. rewrite create_variant_dict_unfold. simpl.
    rewrite record_calls_lookup, lookup_empty. by case_decide.
  - apply genotype_bit_0_classified.
  - apply reference_recorded_0_iff.
  - apply missing_recorded_0_iff.
  - done.
  - done.
  - done.
  - by vm_compute.
Qed.

(** ** Construction of the catalog *)

Lemma sorted_set_elem l p : p ∈ Py.sorted_set l ↔ p ∈ l.
Proof.
  unfold Py.sorted_set. rewrite merge_sort_Permutation.
  by rewrite elem_of_elements, elem_of_list_to_set.
Qed.

Lemma read_line_Ok variant_dict self line self' :
  read_line variant_dict self line = Ok self' →
  ∃ indiv_id population,
    line_id line = Some indiv_id ∧
    variant_name_list self' = variant_name_list self ∧
    ancestry_dict self' = <[indiv_id := population]> (ancestry_dict self) ∧
    ((popu_list self' = popu_list self ∧ variant_list self' = variant_list self) ∨
     (∃ row, variant_dict !! indiv_id = Some row ∧
             popu_list self' = popu_list self ++ [population] ∧
             variant_list self' = variant_list self ++ [row])).
Proof.
  unfold read_line.
  intros (indiv_id & Hid%getitem_Ok & (population & _ & Hrest)%bind_Ok_inv)%bind_Ok_inv.
  exists indiv_id, population. split; [done|]. simpl in Hrest.
  destruct (variant_dict !! indiv_id) as [row|]; injection Hrest as <-; simpl;
    naive_solver.
Qed.

(** Reading lines keeps one label per row; while no id repeats, every label
    read so far is still the label of some id in [ancestry_dict]. *)
Lemma read_lines_Ok variant_dict lines self self' :
  for_each (read_line variant_dict) lines self = Ok self' →
  variant_name_list self' = variant_name_list self ∧
  (length (popu_list self) = length (variant_list self) →
   length (popu_list self') = length (variant_list self')) ∧
  (NoDup (omap line_id lines) →
   (∀ indiv_id, indiv_id ∈ omap line_id lines → ancestry_dict self !! indiv_id = None) →
   Forall (λ p, ∃ indiv_id, ancestry_dict self !! indiv_id = Some p) (popu_list self) →
   Forall (λ p, ∃ indiv_id, ancestry_dict self' !! indiv_id = Some p) (popu_list self')).
Proof.
  revert self. induction lines as [|line lines IH]; intros self; simpl.
  - by intros [= <-].
  - intros (self1 & H1 & H2)%bind_Ok_inv.
    apply read_line_Ok in H1 as (indiv_id & population & Hid & Hnames & Hdict & Hrow).
    apply IH in H2 as (Hnames' & Hlen' & Hknown'). rewrite Hid. simpl.
    split_and!.
    + congruence.
    + intros Hlen. apply Hlen'.
      destruct Hrow as [[-> ->]|(row & _ & -> & ->)]; [done|].
      rewrite !length_app. simpl. lia.
    + intros [Hfresh Hnd]%NoDup_cons Hnone Hknown. apply Hknown'; [done| |].
      * intros id' Hid'. rewrite Hdict, lookup_insert_ne; [|set_solver].
        apply Hnone. by right.
      * assert (Forall (λ p, ∃ id', ancestry_dict self1 !! id' = Some p)
                       (popu_list self)) as Hold.
        { eapply Forall_impl; [exact Hknown|]. intros p [id' Hp]. exists id'.
          rewrite Hdict, lookup_insert_ne; [done|].
          intros <-. rewrite Hnone in Hp; [done|by left]. }
        destruct Hrow as [[-> _]|(row & _ & -> & _)]; [done|].
        apply Forall_app. split; [done|]. apply Forall_singleton.
        exists indiv_id. by rewrite Hdict, lookup_insert_eq.
Qed.

(** [read_user_mappings] on a fresh object: labels and rows are aligned, and
    when no individual id is listed twice every label of a row is a label of
    the universe. *)
Lemma read_user_mappings_invariants names variant_dict header lines self :
  read_user_mappings
    {| variant_list := []; indiv_list := []; popu_list := [];
       variant_name_list := names; ancestry_dict := ∅; ancestry_list := [] |}
    variant_dict (header :: lines) = Ok self →
  variant_name_list self = names ∧ popu_aligned self ∧
  (NoDup (omap line_id lines) → popu_known self).
Proof.
  unfold read_user_mappings.
  intros (self1 & Hlines & [= <-])%bind_Ok_inv.
  apply read_lines_Ok in Hlines as (Hnames & Hlen & Hknown). simpl in *.
  split_and!; [done|by apply Hlen|].
  intros Hnd. unfold popu_known. simpl.
  eapply Forall_impl; [apply Hknown; [done|done|by constructor]|].
  intros p [indiv_id Hp]. simpl in Hp. apply sorted_set_elem.
  apply list_elem_of_fmap. exists (indiv_id, p). split; [done|].
  by apply elem_of_map_to_list.
Qed.

(** [__init__]: the names are those of the records, none of them empty;
    labels and rows are aligned; and when the file lists no individual twice,
    every label of a row is in the universe. *)
Lemma init_invariants variants file self :
  init variants file = Ok self →
  variant_name_list self = variant_name <$> variants ∧
  ("" ∉ variant_name_list self) ∧
  popu_aligned self ∧
  (NoDup (omap line_id (tail file)) → popu_known self).
Proof.
  unfold init. rewrite create_variant_dict_unfold. simpl.
  destruct file as [|header lines]; [done|].
  intros (Hnames & Hlen & Hknown)%read_user_mappings_invariants.
  split_and!; [done| |done|done].
  rewrite Hnames. intros (variant & Hname & _)%list_elem_of_fmap.
  by eapply variant_name_nonempty.
Qed.

(** * The scenario of the specification *)

Ltac concrete :=
  unfold rows_aligned, popu_aligned, popu_known; simpl;
  first [ reflexivity | compute_done ].

Example scenario_root :
  get_target_set scenario = list_to_map [("A", 2); ("B", 2)].
Proof. by vm_compute. Qed.

Example scenario_split_V1 :
  split_subset scenario {| split_path := ([], []) |} (Some "V1") =
  Ok (list_to_map [("A", 2); ("B", 0)], list_to_map [("A", 0); ("B", 2)]).
Proof. by vm_compute. Qed.

Example scenario_filter_V1 : find_ignore_rows scenario (["V1"], [1%Z]) = Ok [2; 3].
Proof. by vm_compute. Qed.

Example scenario_split_V2_under_V1 :
  split_subset scenario {| split_path := (["V1"], [1%Z]) |} (Some "V2") =
  Ok (list_to_map [("A", 1); ("B", 0)], list_to_map [("A", 1); ("B", 0)]).
Proof. by vm_compute. Qed.

Example scenario_scan_under_V1 :
  find_next_variant_counts scenario (["V1"], [1%Z]) =
  Ok [list_to_map [("A", 2); ("B", 0)]; list_to_map [("A", 1); ("B", 0)]].
Proof. by vm_compute. Qed.

Example scenario_frequencies :
  count_variants scenario = Ok (list_to_map [("V1", 2); ("V2", 2)]).
Proof. by vm_compute. Qed.

Example plain_mapping_init :
  init one_variant plain_mapping =
  Ok {| variant_list := [[1%Z]]; indiv_list := ["HG1"]; popu_list := ["GBR"];
        variant_name_list := ["1:99:100"];
        ancestry_dict := {[ "HG1" := "GBR" ]};
        ancestry_list := ["GBR"] |}.
Proof. by vm_compute. Qed.

(** The rows are scanned for the first constraint before the name of the
    second one is looked up: on a ragged matrix the scan raises first. *)
Example ragged_scan_precedes_lookup :
  find_ignore_rows ragged (["V3"; "V1"], [1; 1]%Z) = Err UnknownVariant ∧
  find_ignore_rows ragged (["V1"; "V3"], [1; 1]%Z) = Err IndexError.
Proof. by vm_compute. Qed.

(** * Instances *)

Lemma find_next_variant_counts_agrees_with_split_subset_witness :
  (w_variant_list ← find_next_variant_counts scenario (["V1"], [1%Z]);
   i ← Py.index (variant_name_list scenario) "V2";
   Py.getitem w_variant_list i)
  = fst <$> split_subset scenario {| split_path := (["V1"], [1%Z]) |} (Some "V2")
  ∧ is_Ok (split_subset scenario {| split_path := (["V1"], [1%Z]) |} (Some "V2")).
Proof.
  destruct (find_next_variant_counts_agrees_with_split_subset
              scenario (["V1"], [1%Z]) "V2") as [Hsame Hreturns]; [concrete..|].
  split; [exact Hsame|]. apply Hreturns. concrete.
Defined.

Lemma split_subset_counts_eligible_rows_witness :
  ∃ i w wo,
    Py.index (variant_name_list scenario) "V2" = Ok i ∧
    split_subset scenario {| split_path := (["V1"], [1%Z]) |} (Some "V2") = Ok (w, wo) ∧
    (∀ p, p ∈ ancestry_list scenario →
       w !! p = Some (length (filter (λ row : nat * list Z,
                         popu_list scenario !! row.1 = Some p ∧ row.2 !! i = Some 1%Z)
                       (eligible scenario [2; 3]))) ∧
       wo !! p = Some (length (filter (λ row : nat * list Z,
                         popu_list scenario !! row.1 = Some p ∧ row.2 !! i ≠ Some 1%Z)
                       (eligible scenario [2; 3])))) ∧
    (∀ p, p ∉ ancestry_list scenario → w !! p = None ∧ wo !! p = None) ∧
    total w + total wo = length (eligible scenario [2; 3]).
Proof.
  apply (split_subset_counts_eligible_rows
           scenario {| split_path := (["V1"], [1%Z]) |} "V2" [2; 3]); concrete.
Defined.

Lemma find_ignore_rows_monotone_witness :
  (∀ child ign',
     child = (create_split_path (["V1"], [1%Z]) "V2").1 ∨
     child = (create_split_path (["V1"], [1%Z]) "V2").2 →
     find_ignore_rows scenario child = Ok ign' →
     [2; 3] `prefix_of` ign' ∧ (∀ i, i ∈ [2; 3] → i ∈ ign') ∧
     (∀ row, row ∈ eligible scenario ign' → row ∈ eligible scenario [2; 3])) ∧
  is_Ok (find_ignore_rows scenario (create_split_path (["V1"], [1%Z]) "V2").1) ∧
  is_Ok (find_ignore_rows scenario (create_split_path (["V1"], [1%Z]) "V2").2).
Proof.
  destruct (find_ignore_rows_monotone scenario (["V1"], [1%Z]) "V2" [2; 3])
    as [Hgrows Hreturns]; [concrete|].
  split; [exact Hgrows|]. apply Hreturns; concrete.
Defined.

Lemma get_target_set_is_root_distribution_witness :
  (∃ w wo,
     split_subset scenario {| split_path := ([], []) |} (Some "V1") = Ok (w, wo) ∧
     get_target_set scenario = add_counts w wo) ∧
  (∀ p, p ∈ ancestry_list scenario → is_Some (get_target_set scenario !! p)) ∧
  total (get_target_set scenario) = length (variant_list scenario).
Proof.
  apply (get_target_set_is_root_distribution scenario "V1"); concrete.
Defined.

Lemma split_subset_without_candidate_witness :
  ∃ w wo,
    split_subset scenario {| split_path := (["V1"; "V2"], [1; 0]%Z) |} None = Ok (w, wo) ∧
    dom w = list_to_set (ancestry_list scenario) ∧
    dom wo = list_to_set (ancestry_list scenario) ∧
    (∀ p, p ∈ ancestry_list scenario → w !! p = Some 0 ∧ wo !! p = Some 0).
Proof.
  apply (split_subset_without_candidate
           scenario {| split_path := (["V1"; "V2"], [1; 0]%Z) |}); concrete.
Defined.

Lemma count_variants_counts_carriers_witness :
  ∃ my_dict,
    count_variants scenario = Ok my_dict ∧
    (∀ X, X ∈ dom my_dict ↔
          ∃ i row, variant_name_list scenario !! i = Some X ∧
                   row ∈ variant_list scenario ∧ row !! i = Some 1%Z) ∧
    (∀ i X n, variant_name_list scenario !! i = Some X → my_dict !! X = Some n →
       n = length (filter (λ row : list Z, row !! i = Some 1%Z) (variant_list scenario))).
Proof.
  apply (count_variants_counts_carriers scenario); concrete.
Defined.

Lemma split_subset_empty_string_candidate_witness :
  split_subset scenario {| split_path := (["V1"], [1%Z]) |} (Some "") =
  split_subset scenario {| split_path := (["V1"], [1%Z]) |} None ∧
  split_subset scenario {| split_path := (["V1"], [1%Z]) |} (Some "") =
  Ok (Py.fromkeys (ancestry_list scenario) 0, Py.fromkeys (ancestry_list scenario) 0).
Proof.
  destruct (split_subset_empty_string_candidate
              scenario {| split_path := (["V1"], [1%Z]) |}) as [Hsame Hzero].
  split; [exact Hsame|]. apply Hzero; concrete.
Defined.

Lemma unknown_variant_raises_witness :
  ignore_constraint scenario [] ("V3", 1%Z) = Err UnknownVariant ∧
  (find_ignore_rows scenario (["V1"; "V3"], [1; 0]%Z) = Err UnknownVariant ∧
   split_subset scenario {| split_path := (["V1"; "V3"], [1; 0]%Z) |} (Some "V2")
   = Err UnknownVariant ∧
   find_next_variant_counts scenario (["V1"; "V3"], [1; 0]%Z) = Err UnknownVariant) ∧
  split_subset scenario {| split_path := (["V1"], [1%Z]) |} (Some "V9")
  = (if decide (eligible scenario [2; 3] = [])
     then Ok (Py.fromkeys (ancestry_list scenario) 0,
              Py.fromkeys (ancestry_list scenario) 0)
     else Err UnknownVariant).
Proof.
  destruct (unknown_variant_raises
              scenario {| split_path := (["V1"; "V3"], [1; 0]%Z) |} (Some "V2"))
    as (Hlookup & Hpath & _).
  destruct (unknown_variant_raises
              scenario {| split_path := (["V1"], [1%Z]) |} None)
    as (_ & _ & Hcandidate).
  split; [|split].
  - apply (Hlookup [] ("V3", 1%Z)). concrete.
  - apply Hpath; concrete.
  - apply (Hcandidate "V9" [2; 3]); concrete.
Defined.

(** * Inputs on which a claim fails *)

(** Against C5 as stated: the candidate [V9] is no variant name, yet
    [split_subset] returns, because the path leaves no row eligible and the
    candidate is only looked up inside the loop over eligible rows. *)
Lemma unknown_candidate_not_raised :
  ("V9" ∉ variant_name_list no_carrier) ∧
  find_ignore_rows no_carrier (["V1"], [1%Z]) = Ok [0; 1] ∧
  split_subset no_carrier {| split_path := (["V1"], [1%Z]) |} (Some "V9") =
  Ok (list_to_map [("A", 0); ("B", 0)], list_to_map [("A", 0); ("B", 0)]).
Proof. split_and!; [compute_done|by vm_compute..]. Qed.

(** Against C7 as stated: not for every split path.  A path on the unknown
    variant [V3] makes [split_subset] without a candidate raise. *)
Lemma no_candidate_unknown_path_raises :
  rows_aligned scenario ∧ popu_aligned scenario ∧ popu_known scenario ∧
  split_subset scenario {| split_path := (["V3"], [1%Z]) |} None = Err UnknownVariant.
Proof. split_and!; concrete. Qed.

(** Against C10 as stated: not for every split path.  With the empty string
    as candidate and a path on the unknown variant [V3], [split_subset] fails
    with UnknownVariant. *)
Lemma empty_candidate_unknown_path_raises :
  rows_aligned scenario ∧ popu_aligned scenario ∧ popu_known scenario ∧
  split_subset scenario {| split_path := (["V1"; "V3"], [1; 0]%Z) |} (Some "")
  = Err UnknownVariant.
Proof. split_and!; concrete. Qed.

(** C9 at a mapping file that lists one individual under two populations:
    the object is built, its rows are aligned and the filter returns for the
    empty path, but the first label of [popu_list] is missing from
    [ancestry_list], and both [split_subset] and [find_next_variant_counts]
    raise [KeyError] at the increment. *)
Theorem relisted_individual_KeyError :
  ∃ self,
    init one_variant relisted_mapping = Ok self ∧
    rows_aligned self ∧ popu_aligned self ∧
    popu_list self = ["GBR"; "FIN"] ∧ ancestry_list self = ["FIN"] ∧
    find_ignore_rows self ([], []) = Ok [] ∧
    split_subset self {| split_path := ([], []) |} (Some "1:99:100") = Err KeyError ∧
    find_next_variant_counts self ([], []) = Err KeyError.
Proof.
  eexists. split; [by vm_compute|]. split_and!; concrete.
Qed.

(** * Further properties *)

(** ** The row filter *)

Lemma filter_ext_in {A} (P Q : A → Prop)
    `{!∀ x, Decision (P x), !∀ x, Decision (Q x)} (l : list A) :
  (∀ x, x ∈ l → P x ↔ Q x) → filter P l = filter Q l.
Proof.
  induction l as [|a l IH]; intros Hext; [done|].
  rewrite !filter_cons, IH by (intros x Hx; apply Hext; by right).
  apply decide_ext, Hext. by left.
Qed.

Lemma for_each_ext {A S} (f g : S → A → result S) l s :
  (∀ s a, a ∈ l → f s a = g s a) → for_each f l s = for_each g l s.
Proof.
  revert s. induction l as [|a l IH]; intros s Hext; [done|].
  simpl. rewrite Hext by left. destruct (g s a) as [s'|e]; [|done].
  simpl. apply IH. intros s0 a0 Ha0. apply Hext. by right.
Qed.

Lemma ignore_row_elem var_idx direction ign idx variants ign' :
  ignore_row var_idx direction ign (idx, variants) = Ok ign' →
  ∀ i, i ∈ ign' ↔ i ∈ ign ∨ (i = idx ∧ variants !! var_idx ≠ Some direction).
Proof.
  unfold ignore_row. case_bool_decide as Hin; [intros [= <-]; naive_solver|].
  intros (v & Hv%getitem_Ok & Hrest)%bind_Ok_inv.
  case_bool_decide as Hne; injection Hrest as <-; intros i.
  - rewrite elem_of_app, list_elem_of_singleton. naive_solver.
  - naive_solver.
Qed.

Lemma ignore_rows_elem var_idx direction rows ign ign' :
  for_each (ignore_row var_idx direction) rows ign = Ok ign' →
  ∀ i, i ∈ ign' ↔
       i ∈ ign ∨ ∃ variants, (i, variants) ∈ rows ∧
                             variants !! var_idx ≠ Some direction.
Proof.
  revert ign. induction rows as [|[idx variants] rows IH]; intros ign; simpl.
  - intros [= <-] i. split; [by left|]. intros [?|(? & ?%elem_of_nil & _)]; done.
  - intros (ign1 & H1 & H2)%bind_Ok_inv i.
    rewrite (IH _ H2 i), (ignore_row_elem _ _ _ _ _ _ H1 i). split.
    + intros [[?|[-> ?]]|(row & ? & ?)]; [by left|right..].
      * exists variants. split; [by left|done].
      * exists row. split; [by right|done].
    + intros [?|(row & [[= -> ->]|?]%elem_of_cons & ?)]; [by left; left| |].
      * left. by right.
      * right. by exists row.
Qed.

Lemma ignore_constraint_elem self ign constraint ign' :
  ignore_constraint self ign constraint = Ok ign' →
  ∀ i, i ∈ ign' ↔
       i ∈ ign ∨ ∃ variants, variant_list self !! i = Some variants ∧
                             ¬ satisfies self constraint variants.
Proof.
  destruct constraint as [exc_var direction]. unfold ignore_constraint.
  intros (var_idx & Hidx & Hscan)%bind_Ok_inv i.
  rewrite (ignore_rows_elem _ _ _ _ _ Hscan i).
  assert (∀ variants : list Z,
    variants !! var_idx ≠ Some direction ↔
    ¬ satisfies self (exc_var, direction) variants) as Hsat.
  { intros variants. unfold satisfies. simpl. rewrite Hidx. split.
    - intros Hne (j & [= <-] & Hj). done.
    - intros Hno Hj. apply Hno. by exists var_idx. }
  split; (intros [?|(variants & Hrow & Hv)]; [by left|right]); exists variants.
  - apply enumerate_elem in Hrow. by rewrite <-Hsat.
  - rewrite enumerate_elem, Hsat. done.
Qed.

Lemma ignore_constraints_elem self constraints ign ign' :
  for_each (ignore_constraint self) constraints ign = Ok ign' →
  ∀ i, i ∈ ign' ↔
       i ∈ ign ∨ ∃ variants c, variant_list self !! i = Some variants ∧
                               c ∈ constraints ∧ ¬ satisfies self c variants.
Proof.
  revert ign. induction constraints as [|c constraints IH]; intros ign; simpl.
  - intros [= <-] i. split; [by left|].
    intros [?|(? & ? & _ & ?%elem_of_nil & _)]; done.
  - intros (ign1 & H1 & H2)%bind_Ok_inv i.
    rewrite (IH _ H2 i), (ignore_constraint_elem _ _ _ _ H1 i). split.
    + intros [[?|(row & ? & ?)]|(row & c' & ? & ? & ?)]; [by left|right..].
      * exists row, c. split_and!; [done|by left|done].
      * exists row, c'. split_and!; [done|by right|done].
    + intros [?|(row & c' & ? & [->|?]%elem_of_cons & ?)]; [by left; left| |].
      * left. right. by exists row.
      * right. by exists row, c'.
Qed.

(** X1: on a matrix whose entries are all [0] or [1] (where the identity test
    of the source and the comparison of values agree), whenever
    [find_ignore_rows] returns, the indices it returns are exactly those of the
    rows that fail at least one paired constraint of the path; the other rows
    meet every constraint. *)
Theorem find_ignore_rows_flags_violations
    (self : LOCAL_API) (split_path : list string * list Z) (ign : list nat) :
  bits self →
  find_ignore_rows self split_path = Ok ign →
  (∀ idx, idx ∈ ign ↔
          ∃ variants c, variant_list self !! idx = Some variants ∧
                        c ∈ zip split_path.1 split_path.2 ∧
                        ¬ satisfies self c variants) ∧
  (∀ idx variants, (idx, variants) ∈ eligible self ign ↔
                   variant_list self !! idx = Some variants ∧
                   ∀ c, c ∈ zip split_path.1 split_path.2 →
                        satisfies self c variants).
Proof.
  intros _ Hign.
  pose proof (ignore_constraints_elem _ _ _ _ Hign) as Helem.
  apply ignore_constraints_Ok in Hign as (Hknown & _).
  assert (Hflag : ∀ idx, idx ∈ ign ↔
    ∃ variants c, variant_list self !! idx = Some variants ∧
                  c ∈ zip split_path.1 split_path.2 ∧
                  ¬ satisfies self c variants).
  { intros idx. rewrite Helem. split; [|by right].
    intros [?%elem_of_nil|?]; done. }
  split; [done|]. intros idx variants. rewrite eligible_elem, Hflag. split.
  - intros [Hno Hrow]. split; [done|]. intros [x d] Hc.
    assert (x ∈ variant_name_list self) as [j Hj]%index_elem.
    { rewrite Forall_forall in Hknown. by apply (Hknown (x, d)). }
    destruct (decide (variants !! j = Some d)) as [Hd|Hd]; [by exists j|].
    destruct Hno. exists variants, (x, d). split_and!; [done..|].
    intros (j' & Hj' & Hd'). simpl in *. congruence.
  - intros [Hrow Hall]. split; [|done].
    intros (variants' & c & Hrow' & Hc & Hno). apply Hno.
    assert (variants' = variants) as -> by congruence. by apply Hall.
Qed.

(** X2: on an aligned matrix [find_ignore_rows] returns exactly when every
    name the path pairs with a direction is a variant name; what it returns
    has no duplicates, holds only indices of rows, so is no longer than the
    matrix. *)
Theorem find_ignore_rows_returns_iff
    (self : LOCAL_API) (split_path : list string * list Z) :
  rows_aligned self →
  (is_Ok (find_ignore_rows self split_path) ↔
   Forall (λ c, c.1 ∈ variant_name_list self) (zip split_path.1 split_path.2)) ∧
  (∀ ign, find_ignore_rows self split_path = Ok ign →
     NoDup ign ∧ Forall (λ i, i < length (variant_list self)) ign ∧
     length ign ≤ length (variant_list self)).
Proof.
  intros Hrows. split.
  - split.
    + intros [ign Hign]. by apply find_ignore_rows_Ok in Hign as (? & _).
    + intros Hpath. by apply ignore_constraints_total.
  - intros ign (_ & Hnd & Hlt)%find_ignore_rows_Ok. split_and!; [done..|].
    assert (ign ⊆+ seq 0 (length (variant_list self))) as Hsub.
    { apply NoDup_submseteq; [done|].
      intros i Hi. rewrite Forall_forall in Hlt. apply elem_of_seq.
      specialize (Hlt i Hi). lia. }
    apply submseteq_length in Hsub. by rewrite length_seq in Hsub.
Qed.

(** X3: names without a direction and directions without a name are never
    read: [zip] drops them, so the three queries that take a path give the
    same result with and without them, even when a dropped name is unknown. *)
Theorem unpaired_path_entries_are_ignored
    (self : LOCAL_API) (names more_names : list string)
    (directions more_directions : list Z) (split_var : option string) :
  length names = length directions →
  (find_ignore_rows self (names ++ more_names, directions)
   = find_ignore_rows self (names, directions) ∧
   find_ignore_rows self (names, directions ++ more_directions)
   = find_ignore_rows self (names, directions)) ∧
  (split_subset self {| split_path := (names ++ more_names, directions) |} split_var
   = split_subset self {| split_path := (names, directions) |} split_var ∧
   split_subset self {| split_path := (names, directions ++ more_directions) |} split_var
   = split_subset self {| split_path := (names, directions) |} split_var) ∧
  (find_next_variant_counts self (names ++ more_names, directions)
   = find_next_variant_counts self (names, directions) ∧
   find_next_variant_counts self (names, directions ++ more_directions)
   = find_next_variant_counts self (names, directions)).
Proof.
  intros Hlen.
  assert (zip (names ++ more_names) directions = zip names directions) as Hl.
  { rewrite zip_with_app_l, Hlen, firstn_all, drop_all.
    by rewrite zip_with_nil_r, app_nil_r. }
  assert (zip names (directions ++ more_directions) = zip names directions) as Hr.
  { rewrite zip_with_app_r, <-Hlen, firstn_all, drop_all. simpl.
    by rewrite app_nil_r. }
  unfold split_subset, find_next_variant_counts, find_ignore_rows. simpl.
  by rewrite Hl, Hr.
Qed.

Lemma satisfies_index self X i d variants :
  Py.index (variant_name_list self) X = Ok i →
  satisfies self (X, d) variants ↔ variants !! i = Some d.
Proof.
  intros Hi. unfold satisfies. simpl. rewrite Hi. split.
  - by intros (j & [= <-] & ?).
  - intros ?. by exists i.
Qed.

Lemma split_row_same_flags self ign ign' split_var dicts row :
  (row.1 ∈ ign ↔ row.1 ∈ ign') →
  split_row self ign split_var dicts row = split_row self ign' split_var dicts row.
Proof.
  destruct row as [idx variants], dicts as [w wo]. simpl. intros Hflag.
  unfold split_row. by rewrite (bool_decide_ext _ _ Hflag).
Qed.

Lemma count_row_same_flags self ign ign' ws row :
  (row.1 ∈ ign ↔ row.1 ∈ ign') →
  count_row self ign ws row = count_row self ign' ws row.
Proof.
  destruct row as [idx variants]. simpl. intros Hflag.
  unfold count_row. by rewrite (bool_decide_ext _ _ Hflag).
Qed.

(** X4: on an aligned matrix whose entries are all [0] or [1] (where the
    identity test of the source and the comparison of values agree), only the
    set of paired constraints of a path matters, not their order nor their
    repetition: two paths that pair the same constraints give the same result
    in [split_subset] and in [find_next_variant_counts], and
    [find_ignore_rows] returns the same indices, possibly in another order. *)
Theorem only_the_set_of_constraints_matters
    (self : LOCAL_API) (path path' : list string * list Z)
    (split_var : option string) :
  bits self →
  rows_aligned self →
  (∀ c, c ∈ zip path.1 path.2 ↔ c ∈ zip path'.1 path'.2) →
  split_subset self {| split_path := path |} split_var
  = split_subset self {| split_path := path' |} split_var ∧
  find_next_variant_counts self path = find_next_variant_counts self path' ∧
  (∀ ign ign', find_ignore_rows self path = Ok ign →
               find_ignore_rows self path' = Ok ign' → ign ≡ₚ ign').
Proof.
  intros _ Hrows Hset.
  assert (Hsame : ∀ ign ign', find_ignore_rows self path = Ok ign →
                    find_ignore_rows self path' = Ok ign' →
                    ∀ i, i ∈ ign ↔ i ∈ ign').
  { intros ign ign' Hign Hign' i.
    rewrite (ignore_constraints_elem _ _ _ _ Hign i).
    rewrite (ignore_constraints_elem _ _ _ _ Hign' i).
    by setoid_rewrite Hset. }
  destruct (decide (Forall (λ c : string * Z, c.1 ∈ variant_name_list self)
                           (zip path.1 path.2))) as [Hknown|Hunknown].
  - destruct (ignore_constraints_total self _ [] Hrows Hknown) as [ign Hign].
    assert (Forall (λ c : string * Z, c.1 ∈ variant_name_list self)
                   (zip path'.1 path'.2)) as Hknown'.
    { rewrite Forall_forall in Hknown. apply Forall_forall.
      intros c Hc. by apply Hknown, Hset. }
    destruct (ignore_constraints_total self _ [] Hrows Hknown') as [ign' Hign'].
    fold (find_ignore_rows self path) in Hign.
    fold (find_ignore_rows self path') in Hign'.
    specialize (Hsame ign ign' Hign Hign'). split_and!.
    + unfold split_subset. simpl. rewrite Hign, Hign'. simpl.
      apply for_each_ext. intros dicts row _. by apply split_row_same_flags.
    + unfold find_next_variant_counts. rewrite Hign, Hign'. simpl.
      apply for_each_ext. intros ws row _. by apply count_row_same_flags.
    + intros ign0 ign0' H0 H0'. rewrite Hign in H0. rewrite Hign' in H0'.
      injection H0 as <-. injection H0' as <-.
      apply find_ignore_rows_Ok in Hign as (_ & Hnd & _).
      apply find_ignore_rows_Ok in Hign' as (_ & Hnd' & _).
      by apply NoDup_Permutation.
  - apply not_Forall_Exists in Hunknown; [|apply _].
    assert (Exists (λ c : string * Z, c.1 ∉ variant_name_list self)
                   (zip path'.1 path'.2)) as Hunknown'.
    { apply Exists_exists in Hunknown as (c & Hc & Hno).
      apply Exists_exists. exists c. split; [by apply Hset|done]. }
    pose proof (ignore_constraints_unknown self _ [] Hrows Hunknown) as Hign.
    pose proof (ignore_constraints_unknown self _ [] Hrows Hunknown') as Hign'.
    fold (find_ignore_rows self path) in Hign.
    fold (find_ignore_rows self path') in Hign'.
    unfold split_subset, find_next_variant_counts. simpl.
    rewrite Hign, Hign'. split_and!; [done..|]. intros; congruence.
Qed.

Lemma split_rows_all_ignored self ign split_var rows dicts :
  Forall (λ row : nat * list Z, row.1 ∈ ign) rows →
  for_each (split_row self ign split_var) rows dicts = Ok dicts.
Proof.
  induction 1 as [|[idx variants] rows Hrow _ IH]; [done|].
  cbn [for_each]. by rewrite split_row_ignored.
Qed.

Lemma count_rows_all_ignored self ign rows ws :
  Forall (λ row : nat * list Z, row.1 ∈ ign) rows →
  for_each (count_row self ign) rows ws = Ok ws.
Proof.
  induction 1 as [|[idx variants] rows Hrow _ IH]; [done|].
  cbn [for_each]. by rewrite count_row_ignored.
Qed.

(** X5: a path that asks for two different directions of one variant leaves
    no row eligible: when the filter returns, it returns every row index, and
    then [split_subset] returns two all-zero mappings for any candidate, known
    or not, and [find_next_variant_counts] one all-zero mapping per variant
    name. *)
Theorem contradictory_path_excludes_every_row
    (self : LOCAL_API) (node : Node) (x : string) (d d' : Z) (ign : list nat)
    (split_var : option string) :
  find_ignore_rows self (split_path node) = Ok ign →
  (x, d) ∈ zip (split_path node).1 (split_path node).2 →
  (x, d') ∈ zip (split_path node).1 (split_path node).2 →
  d ≠ d' →
  (∀ idx, idx < length (variant_list self) → idx ∈ ign) ∧
  eligible self ign = [] ∧
  split_subset self node split_var =
    Ok (Py.fromkeys (ancestry_list self) 0, Py.fromkeys (ancestry_list self) 0) ∧
  find_next_variant_counts self (split_path node) =
    Ok ((λ _, Py.fromkeys (ancestry_list self) 0) <$> variant_name_list self).
Proof.
  intros Hign Hd Hd' Hne.
  assert (Hall : ∀ idx, idx < length (variant_list self) → idx ∈ ign).
  { intros idx [variants Hrow]%lookup_lt_is_Some_2.
    rewrite (ignore_constraints_elem _ _ _ _ Hign idx). right.
    assert (x ∈ variant_name_list self) as [j Hj]%index_elem.
    { apply ignore_constraints_Ok in Hign as (Hknown & _).
      rewrite Forall_forall in Hknown. by apply (Hknown (x, d)). }
    destruct (decide (variants !! j = Some d)) as [Hv|Hv].
    - exists variants, (x, d'). split_and!; [done..|].
      rewrite satisfies_index by done. congruence.
    - exists variants, (x, d). split_and!; [done..|].
      by rewrite satisfies_index. }
  assert (Hrows : Forall (λ row : nat * list Z, row.1 ∈ ign)
                         (Py.enumerate (variant_list self))).
  { apply Forall_forall. intros [idx variants] Hin%enumerate_elem. simpl.
    apply Hall. by eapply lookup_lt_Some. }
  split_and!; [done| | |].
  - unfold eligible. apply filter_none.
    eapply Forall_impl; [exact Hrows|]. naive_solver.
  - unfold split_subset. rewrite Hign. simpl. by apply split_rows_all_ignored.
  - unfold find_next_variant_counts. rewrite Hign. simpl.
    by apply count_rows_all_ignored.
Qed.

(** ** Children of a path *)

Section children.
Variable self : LOCAL_API.

(** The filter on a child path runs one more pass from the parent's list. *)
Lemma find_ignore_rows_child parent X d ign :
  length parent.1 = length parent.2 →
  find_ignore_rows self parent = Ok ign →
  find_ignore_rows self (parent.1 ++ [X], parent.2 ++ [d]) =
  ignore_constraint self ign (X, d).
Proof.
  intros Hlen Hign. destruct (zip_snoc parent.1 parent.2 X d) as (c & Hzip & Hc).
  unfold find_ignore_rows in *. simpl. rewrite Hzip, for_each_snoc, Hign.
  by rewrite (Hc Hlen).
Qed.

Lemma eligible_child parent X i d ign ign' :
  length parent.1 = length parent.2 →
  find_ignore_rows self parent = Ok ign →
  Py.index (variant_name_list self) X = Ok i →
  find_ignore_rows self (parent.1 ++ [X], parent.2 ++ [d]) = Ok ign' →
  eligible self ign' =
  filter (λ row : nat * list Z, row.2 !! i = Some d) (eligible self ign).
Proof.
  intros Hlen Hign Hi Hign'. rewrite (find_ignore_rows_child _ _ _ ign) in Hign' by done.
  pose proof (ignore_constraint_elem _ _ _ _ Hign') as Helem.
  unfold eligible. rewrite list_filter_filter. apply filter_ext_in.
  intros [idx variants] Hin%enumerate_elem. simpl. rewrite Helem. split.
  - intros Hno. split; [|by intros ?; apply Hno; left].
    destruct (decide (variants !! i = Some d)) as [|Hd]; [done|].
    destruct Hno. right. exists variants. split; [done|].
    by rewrite (satisfies_index self X i).
  - intros [Hd Hno] [?|(variants' & Hrow & Hsat)]; [done|].
    assert (variants' = variants) as -> by congruence.
    by rewrite (satisfies_index self X i) in Hsat.
Qed.

Lemma labels_where_filter (P : nat * list Z → Prop) `{!∀ row, Decision (P row)}
    keep rows :
  (∀ row, row ∈ rows → P row ↔ keep row.2 = true) →
  labels_where self (λ _, true) (filter P rows) = labels_where self keep rows.
Proof.
  induction rows as [|row rows IH]; intros Hext; [done|].
  rewrite filter_cons, labels_where_cons.
  rewrite <-IH by (intros row' ?; apply Hext; by right).
  destruct (keep row.2) eqn:Hkeep.
  - rewrite decide_True by (apply Hext; [by left|done]).
    by rewrite labels_where_cons.
  - rewrite decide_False; [done|]. rewrite Hext by left. congruence.
Qed.

End children.

(** X6: the two paths made by [create_split_path] split the eligible rows of
    the parent by the entry in the new variant's column: the rows eligible
    under the first child are the parent's eligible rows with a [1] there,
    those under the second child the ones with a [0]; when every entry is a
    bit, each eligible row of the parent goes to exactly one child. *)
Theorem children_split_the_eligible_rows
    (self : LOCAL_API) (parent : list string * list Z) (X : string) (i : nat)
    (ign ign_w ign_wo : list nat) :
  length parent.1 = length parent.2 →
  Py.index (variant_name_list self) X = Ok i →
  find_ignore_rows self parent = Ok ign →
  find_ignore_rows self (create_split_path parent X).1 = Ok ign_w →
  find_ignore_rows self (create_split_path parent X).2 = Ok ign_wo →
  eligible self ign_w =
    filter (λ row : nat * list Z, row.2 !! i = Some 1%Z) (eligible self ign) ∧
  eligible self ign_wo =
    filter (λ row : nat * list Z, row.2 !! i = Some 0%Z) (eligible self ign) ∧
  (rows_aligned self → bits self →
   length (eligible self ign_w) + length (eligible self ign_wo)
   = length (eligible self ign)).
Proof.
  intros Hlen Hi Hign Hw Hwo. simpl in Hw, Hwo.
  pose proof (eligible_child self parent X i 1%Z ign ign_w Hlen Hign Hi Hw) as Ew.
  pose proof (eligible_child self parent X i 0%Z ign ign_wo Hlen Hign Hi Hwo) as Ewo.
  split_and!; [done..|]. intros Hrows Hbits. rewrite Ew, Ewo.
  rewrite (filter_ext_in (λ row : nat * list Z, row.2 !! i = Some 0%Z)
             (λ row : nat * list Z, ¬ row.2 !! i = Some 1%Z)).
  - rewrite <-length_app. by rewrite filter_app_complement.
  - intros [idx variants] [_ Hrow]%eligible_elem. simpl.
    eapply Forall_lookup_1 in Hrows as Hwidth; [|done]. simpl in Hwidth.
    destruct (lookup_lt_is_Some_2 variants i) as [v Hv].
    { rewrite Hwidth. by eapply index_lt. }
    eapply Forall_lookup_1 in Hbits; [|done].
    eapply Forall_lookup_1 in Hbits; [|done]. rewrite Hv.
    destruct Hbits as [-> | ->]; naive_solver.
Qed.

(** X7: growing the tree composes.  On a well-formed object, the first
    mapping [split_subset] returns for a parent path and a variant [X] is
    the whole distribution (both mappings added up) that [split_subset]
    returns on the first child path of [create_split_path], for any candidate
    [Y]; when every entry is a bit, the second mapping is likewise the
    distribution on the second child path. *)
Theorem split_branch_is_child_distribution
    (self : LOCAL_API) (parent : list string * list Z) (X Y : string)
    (w wo : gmap string nat) :
  rows_aligned self → popu_aligned self → popu_known self →
  length parent.1 = length parent.2 →
  X ∈ variant_name_list self → X ≠ "" →
  Y ∈ variant_name_list self → Y ≠ "" →
  split_subset self {| split_path := parent |} (Some X) = Ok (w, wo) →
  (∃ w1 wo1,
     split_subset self {| split_path := (create_split_path parent X).1 |} (Some Y)
     = Ok (w1, wo1) ∧ w = add_counts w1 wo1) ∧
  (bits self →
   ∃ w0 wo0,
     split_subset self {| split_path := (create_split_path parent X).2 |} (Some Y)
     = Ok (w0, wo0) ∧ wo = add_counts w0 wo0).
Proof.
  intros Hrows Hlen Hknown Hpath [i Hi]%index_elem HX [k Hk]%index_elem HY Hsplit.
  assert (∃ ign, find_ignore_rows self parent = Ok ign) as [ign Hign].
  { unfold split_subset in Hsplit. apply bind_Ok_inv in Hsplit as (ign & ? & _).
    by exists ign. }
  rewrite (split_subset_Ok self _ X i ign) in Hsplit by done.
  injection Hsplit as <- <-.
  assert (Hchild : ∀ d, ∃ ign', find_ignore_rows self (parent.1 ++ [X], parent.2 ++ [d]) = Ok ign').
  { intros d. rewrite (find_ignore_rows_child self parent X d ign) by done.
    apply ignore_constraint_total; [done|]. simpl.
    apply index_Ok in Hi as [Hi _]. by eapply list_elem_of_lookup_2. }
  assert (Hsum : ∀ d ign' keep,
    find_ignore_rows self (parent.1 ++ [X], parent.2 ++ [d]) = Ok ign' →
    (∀ row, row ∈ eligible self ign → row.2 !! i = Some d ↔ keep row.2 = true) →
    counts_where self keep ign =
    add_counts (counts_where self (carries k) ign')
               (counts_where self (negb ∘ carries k) ign')).
  { intros d ign' keep Hign' Hkeep. apply map_eq. intros p.
    unfold add_counts, counts_where. rewrite lookup_union_with.
    rewrite !tally_fromkeys_lookup by by apply labels_where_known.
    case_decide; [|done]. simpl. f_equal.
    rewrite labels_where_split.
    rewrite (eligible_child self parent X i d ign ign') by done.
    by rewrite (labels_where_filter self _ keep). }
  split.
  - destruct (Hchild 1%Z) as [ign' Hign']. eexists _, _. split.
    + by apply (split_subset_Ok self _ Y k ign').
    + apply (Hsum 1%Z); [done|]. intros row _. unfold carries.
      by rewrite bool_decide_eq_true.
  - intros Hbits. destruct (Hchild 0%Z) as [ign' Hign']. eexists _, _. split.
    + by apply (split_subset_Ok self _ Y k ign').
    + apply (Hsum 0%Z); [done|].
      intros [idx variants] [_ Hrow]%eligible_elem. simpl. unfold carries.
      rewrite negb_true_iff, bool_decide_eq_false.
      eapply Forall_lookup_1 in Hrows as Hwidth; [|done]. simpl in Hwidth.
      destruct (lookup_lt_is_Some_2 variants i) as [v Hv].
      { rewrite Hwidth. by eapply index_lt. }
      eapply Forall_lookup_1 in Hbits; [|done].
      eapply Forall_lookup_1 in Hbits; [|done]. rewrite Hv.
      destruct Hbits as [-> | ->]; naive_solver.
Qed.

(** ** Shape of the results *)

Lemma incr_dom d k d' : Py.incr d k = Ok d' → dom d' = dom d.
Proof.
  unfold Py.incr. destruct (d !! k) as [n|] eqn:Hk; [|done]. intros [= <-].
  rewrite dom_insert_L. apply elem_of_dom_2 in Hk. set_solver.
Qed.

Lemma split_row_dom self ign split_var dicts row dicts' :
  split_row self ign split_var dicts row = Ok dicts' →
  dom dicts'.1 = dom dicts.1 ∧ dom dicts'.2 = dom dicts.2.
Proof.
  destruct row as [idx variants], dicts as [w wo]. simpl.
  unfold split_row. case_bool_decide; [by intros [= <-]|].
  intros (p & _ & Hrest)%bind_Ok_inv.
  destruct (Py.truthy split_var) as [X|]; [|by injection Hrest as <-].
  apply bind_Ok_inv in Hrest as (i & _ & Hrest).
  apply bind_Ok_inv in Hrest as (v & _ & Hrest).
  case_bool_decide; apply bind_Ok_inv in Hrest as (d & Hd%incr_dom & [= <-]);
    by simpl.
Qed.

Lemma count_entry_shape popu ws entry ws' :
  count_entry popu ws entry = Ok ws' →
  length ws' = length ws ∧
  ∀ j d', ws' !! j = Some d' → ∃ d, ws !! j = Some d ∧ dom d' = dom d.
Proof.
  destruct entry as [idx2 v]. unfold count_entry.
  case_bool_decide; [|intros [= <-]; naive_solver].
  intros (d & Hd%getitem_Ok & (d1 & Hd1%incr_dom & [= <-])%bind_Ok_inv)%bind_Ok_inv.
  split; [apply length_insert|]. intros j d' Hj.
  destruct (decide (j = idx2)) as [->|Hne].
  - rewrite list_lookup_insert_eq in Hj by (by eapply lookup_lt_Some).
    injection Hj as <-. by exists d.
  - rewrite list_lookup_insert_ne in Hj by done. by exists d'.
Qed.

(** X8: whatever the object, the path and the candidate, the two mappings
    [split_subset] returns have exactly the labels of [ancestry_list] as keys:
    a count can change, a key is never added or dropped. *)
Theorem split_subset_keeps_the_universe
    (self : LOCAL_API) (node : Node) (split_var : option string)
    (w wo : gmap string nat) :
  split_subset self node split_var = Ok (w, wo) →
  dom w = list_to_set (ancestry_list self) ∧
  dom wo = list_to_set (ancestry_list self).
Proof.
  unfold split_subset. intros (ign & _ & Hloop)%bind_Ok_inv.
  apply (for_each_Ok_inv
           (λ dicts, dom dicts.1 = list_to_set (ancestry_list self) ∧
                     dom dicts.2 = list_to_set (ancestry_list self)))
    in Hloop; [done| |].
  - intros dicts row dicts' [H1 H2] [H1' H2']%split_row_dom. split; congruence.
  - simpl. by rewrite fromkeys_dom.
Qed.

(** X9: whatever the object and the path, the list
    [find_next_variant_counts] returns has one mapping per variant name, each
    with exactly the labels of [ancestry_list] as keys. *)
Theorem find_next_variant_counts_shape
    (self : LOCAL_API) (split_path : list string * list Z)
    (w_variant_list : list (gmap string nat)) :
  find_next_variant_counts self split_path = Ok w_variant_list →
  length w_variant_list = length (variant_name_list self) ∧
  Forall (λ d : gmap string nat, dom d = list_to_set (ancestry_list self))
         w_variant_list.
Proof.
  unfold find_next_variant_counts. intros (ign & _ & Hloop)%bind_Ok_inv.
  set (Inv := λ ws : list (gmap string nat),
         length ws = length (variant_name_list self) ∧
         Forall (λ d : gmap string nat,
                   dom d = list_to_set (ancestry_list self)) ws).
  apply (for_each_Ok_inv Inv) in Hloop; [done| |].
  - intros ws [idx variants] ws' Hws. unfold count_row.
    case_bool_decide; [by intros [= <-]|].
    intros (p & _ & Hinner)%bind_Ok_inv.
    apply (for_each_Ok_inv Inv) in Hinner; [done| |done].
    intros ws0 entry ws1 [Hlen Hdom] [Hlen' Hdom']%count_entry_shape.
    split; [congruence|]. apply Forall_lookup. intros j d' Hj.
    destruct (Hdom' j d' Hj) as (d & Hd & Heq). rewrite Heq.
    by eapply Forall_lookup_1 in Hdom.
  - split; [apply length_fmap|].
    apply Forall_fmap, Forall_forall. intros x Hx. simpl. apply fromkeys_dom.
Qed.

(** X10: when every label of [popu_list] is in [ancestry_list], neither
    [split_subset] nor [find_next_variant_counts] can raise [KeyError],
    whatever the matrix, the path and the candidate. *)
Theorem known_labels_never_miss_a_key
    (self : LOCAL_API) (node : Node) (split_var : option string) :
  popu_known self →
  split_subset self node split_var ≠ Err KeyError ∧
  find_next_variant_counts self (split_path node) ≠ Err KeyError.
Proof.
  intros Hknown. split.
  - by apply split_subset_no_KeyError.
  - by apply find_next_variant_counts_no_KeyError.
Qed.

(** ** The root distribution *)

(** X11: [get_target_set] never fails and tolerates labels outside the
    universe: on any object its keys are the labels of [ancestry_list]
    together with those of [popu_list], the count of a key is its number of
    occurrences in [popu_list], and the counts add up to the length of
    [popu_list]. *)
Theorem get_target_set_counts_every_label (self : LOCAL_API) :
  (∀ p, get_target_set self !! p =
        if decide (p ∈ ancestry_list self ∨ p ∈ popu_list self)
        then Some (occurrences p (popu_list self)) else None) ∧
  dom (get_target_set self) =
    list_to_set (ancestry_list self) ∪ list_to_set (popu_list self) ∧
  total (get_target_set self) = length (popu_list self).
Proof.
  assert (Hlookup : ∀ p, get_target_set self !! p =
        if decide (p ∈ ancestry_list self ∨ p ∈ popu_list self)
        then Some (occurrences p (popu_list self)) else None).
  { intros p. unfold get_target_set. rewrite tally_lookup, fromkeys_lookup.
    destruct (decide (p ∈ popu_list self)) as [Hp|Hp].
    - rewrite (decide_True (P := _ ∨ _)) by by right. by case_decide.
    - destruct (decide (p ∈ ancestry_list self)) as [Ha|Ha].
      + rewrite decide_True by by left. f_equal. unfold occurrences.
        rewrite filter_none; [done|]. apply Forall_forall. naive_solver.
      + rewrite decide_False; [done|]. by intros [?|?]. }
  split_and!; [done| |].
  - apply set_eq. intros p.
    rewrite elem_of_dom, Hlookup, elem_of_union, !elem_of_list_to_set.
    case_decide; [naive_solver|]. split; [by intros [? ?]|done].
  - unfold get_target_set. by rewrite total_tally, total_fromkeys.
Qed.

(** ** Variant frequencies, again *)

Lemma for_each_Ok_all {A S} (f : S → A → result S) l s s' :
  for_each f l s = Ok s' → Forall (λ a, ∃ s0, is_Ok (f s0 a)) l.
Proof.
  revert s. induction l as [|a l IH]; intros s; simpl; [by constructor|].
  intros (s1 & H1 & H2)%bind_Ok_inv. constructor; [|by eapply IH].
  exists s. by exists s1.
Qed.

Section frequencies_bounds.
Variable self : LOCAL_API.

Lemma tally_entry_Ok d entry d' :
  tally_entry self d entry = Ok d' →
  total d' = total d + (if bool_decide (entry.2 = 1%Z) then 1 else 0) ∧
  (entry.2 = 1%Z → entry.1 < length (variant_name_list self)).
Proof.
  destruct entry as [idx v]. unfold tally_entry. simpl.
  case_bool_decide; [|intros [= <-]; split; [lia|done]].
  intros (name & Hname%getitem_Ok & [= <-])%bind_Ok_inv.
  rewrite total_bump. split; [lia|]. intros _. by eapply lookup_lt_Some.
Qed.

Lemma tally_entry_total_fn d entry :
  (entry.2 = 1%Z → entry.1 < length (variant_name_list self)) →
  is_Ok (tally_entry self d entry).
Proof.
  destruct entry as [idx v]. unfold tally_entry. simpl. intros Hlt.
  case_bool_decide as Hv; [|by eexists].
  destruct (lookup_lt_is_Some_2 (variant_name_list self) idx (Hlt Hv)) as [name Hname].
  apply getitem_Ok in Hname as ->. by eexists.
Qed.

Lemma tally_entry_Err d entry e : tally_entry self d entry = Err e → e = IndexError.
Proof.
  destruct entry as [idx v]. unfold tally_entry. case_bool_decide; [|done].
  intros [He|(name & _ & ?)]%bind_Err_inv; [by apply getitem_Err in He|done].
Qed.

Lemma tally_entries_total entries d d' :
  for_each (tally_entry self) entries d = Ok d' →
  total d' = total d + length (filter (λ entry : nat * Z, entry.2 = 1%Z) entries).
Proof.
  revert d. induction entries as [|entry entries IH]; intros d; simpl.
  - intros [= <-]. lia.
  - intros (d1 & [H1 _]%tally_entry_Ok & H2%IH)%bind_Ok_inv.
    rewrite filter_cons. case_bool_decide.
    + rewrite decide_True by done. simpl. lia.
    + rewrite decide_False by done. lia.
Qed.

Lemma tally_entries_returns entries d :
  Forall (λ entry : nat * Z,
            entry.2 = 1%Z → entry.1 < length (variant_name_list self)) entries →
  is_Ok (for_each (tally_entry self) entries d).
Proof.
  intros Hall. revert d. induction Hall as [|entry entries H _ IH]; intros d.
  - by eexists.
  - simpl. destruct (tally_entry_total_fn d entry H) as [d1 ->]. apply IH.
Qed.

Lemma enumerate_ones n (variants : list Z) :
  length (filter (λ entry : nat * Z, entry.2 = 1%Z) (Py.enumerate_from n variants))
  = length (filter (λ v : Z, v = 1%Z) variants).
Proof.
  revert n. induction variants as [|v variants IH]; intros n; [done|].
  simpl. rewrite !filter_cons. simpl. case_decide; simpl; by rewrite IH.
Qed.

Lemma tally_row_Err variants d e :
  for_each (tally_entry self) (Py.enumerate variants) d = Err e → e = IndexError.
Proof.
  intros He. apply (for_each_Err_inv (λ _, True)) in He as (d0 & entry & _ & _ & He);
    [|done..]. by eapply tally_entry_Err.
Qed.

Lemma tally_rows_total (rows : list (list Z)) d :
  Forall (λ row : list Z,
            ∀ i, row !! i = Some 1%Z → i < length (variant_name_list self)) rows →
  ∃ d', for_each (λ my_dict variants,
                    for_each (tally_entry self) (Py.enumerate variants) my_dict)
                 rows d = Ok d' ∧
        total d' = total d + ones rows.
Proof.
  intros Hrows. revert d. induction Hrows as [|row rows Hrow _ IH]; intros d.
  - exists d. split; [done|]. unfold ones. simpl. lia.
  - destruct (tally_entries_returns (Py.enumerate row) d) as [d1 Hd1].
    { apply Forall_forall. intros [i v] Hin%enumerate_elem. simpl.
      intros ->. by apply Hrow. }
    cbn [for_each]. rewrite Hd1. simpl.
    apply tally_entries_total in Hd1. unfold Py.enumerate in Hd1.
    rewrite enumerate_ones in Hd1.
    destruct (IH d1) as (d2 & Hd2 & Ht). exists d2. split; [done|].
    rewrite Ht, Hd1. unfold ones. simpl. rewrite filter_app, length_app. lia.
Qed.

End frequencies_bounds.

(** X12: [count_variants] reads the name of a column only where a row has a
    [1].  When no row has a [1] beyond the last named column it returns, and
    its counts add up to the number of [1] entries of the matrix, duplicate
    names included; when some row has one, it raises [IndexError]. *)
Theorem count_variants_total_and_bounds (self : LOCAL_API) :
  (Forall (λ row : list Z,
             ∀ i, row !! i = Some 1%Z → i < length (variant_name_list self))
          (variant_list self) →
   ∃ my_dict, count_variants self = Ok my_dict ∧
              total my_dict = ones (variant_list self)) ∧
  (Exists (λ row : list Z,
             ∃ i, row !! i = Some 1%Z ∧ length (variant_name_list self) ≤ i)
          (variant_list self) →
   count_variants self = Err IndexError).
Proof.
  unfold count_variants. split.
  - intros Hrows.
    destruct (tally_rows_total self (variant_list self) ∅ Hrows) as (d & Hd & Ht).
    exists d. split; [done|]. rewrite Ht. unfold total. by rewrite map_fold_empty.
  - intros Hbad.
    destruct (for_each _ _ _) as [d|e] eqn:Hres.
    + apply for_each_Ok_all in Hres. exfalso.
      apply Exists_exists in Hbad as (row & Hrow & i & Hi & Hge).
      rewrite Forall_forall in Hres. destruct (Hres row Hrow) as (d0 & d1 & Hd1).
      apply for_each_Ok_all in Hd1. rewrite Forall_forall in Hd1.
      destruct (Hd1 (i, 1%Z)) as (d2 & d3 & Hd3); [by apply enumerate_elem|].
      apply tally_entry_Ok in Hd3 as [_ Hlt]. simpl in Hlt.
      specialize (Hlt eq_refl). lia.
    + f_equal.
      apply (for_each_Err_inv (λ _, True)) in Hres as (d0 & row & _ & _ & He);
        [|done..]. by eapply tally_row_Err.
Qed.

(** ** The scanner, again *)

Lemma enumerate_filter_length {A} (P : A → Prop) `{!∀ a, Decision (P a)}
    `{!∀ entry : nat * A, Decision (P entry.2)} n (l : list A) :
  length (filter (λ entry : nat * A, P entry.2) (Py.enumerate_from n l))
  = length (filter P l).
Proof.
  revert n. induction l as [|a l IH]; intros n; [done|].
  simpl. rewrite !filter_cons. simpl.
  destruct (decide (P a)) as [HP|HP].
  - rewrite decide_True by done. simpl. by rewrite IH.
  - rewrite decide_False by done. by rewrite IH.
Qed.

Lemma length_filter_mono {A} (P Q : A → Prop)
    `{!∀ a, Decision (P a), !∀ a, Decision (Q a)} (l : list A) :
  (∀ a, a ∈ l → P a → Q a) → length (filter P l) ≤ length (filter Q l).
Proof.
  induction l as [|a l IH]; intros Himp; [done|].
  rewrite !filter_cons.
  assert (length (filter P l) ≤ length (filter Q l)) as Hle
    by (apply IH; intros a' ?; apply Himp; by right).
  destruct (decide (P a)) as [HP|HP].
  - rewrite decide_True by (apply Himp; [by left|done]). simpl. lia.
  - case_decide; simpl; lia.
Qed.

Lemma labels_where_length_keep self keep rows :
  Forall (λ row : nat * list Z, row.1 < length (popu_list self)) rows →
  length (labels_where self keep rows) =
  length (filter (λ row : nat * list Z, keep row.2 = true) rows).
Proof.
  induction 1 as [|row rows Hrow _ IH]; [done|].
  rewrite labels_where_cons, length_app, filter_cons, IH.
  apply lookup_lt_is_Some_2 in Hrow as [p ->].
  by destruct (keep row.2).
Qed.

(** X13: at the root the scanner and the frequency count agree.  On a
    well-formed object with unique variant names, the counts of the mapping
    [find_next_variant_counts] returns for the empty path at the position of a
    name add up to the value [count_variants] holds for that name, or to [0]
    when [count_variants] left the name out. *)
Theorem root_scan_totals_are_frequencies
    (self : LOCAL_API) (j : nat) (X : string) :
  rows_aligned self → popu_aligned self → popu_known self →
  NoDup (variant_name_list self) →
  variant_name_list self !! j = Some X →
  ∃ w_variant_list my_dict w,
    find_next_variant_counts self ([], []) = Ok w_variant_list ∧
    count_variants self = Ok my_dict ∧
    w_variant_list !! j = Some w ∧
    total w = default 0 (my_dict !! X).
Proof.
  intros Hrows Hlen Hknown Hnd Hj.
  destruct (tally_rows_Ok self (variant_list self) ∅ Hnd) as (d & Hd & Hin & _).
  { eapply Forall_impl; [exact Hrows|]. intros row Hrow. simpl in Hrow. lia. }
  eexists _, d, _. split_and!.
  - by apply (find_next_variant_counts_Ok self ([], []) []).
  - done.
  - by rewrite list_lookup_imap, Hj.
  - rewrite counts_where_total, eligible_nil.
    rewrite labels_where_length_keep by by apply enumerate_popu_aligned.
    unfold Py.enumerate.
    trans (length (filter (λ row : list Z, carries j row = true)
                          (variant_list self)));
      [apply (enumerate_filter_length (λ row : list Z, carries j row = true))|].
    rewrite (Hin _ _ Hj), lookup_empty. simpl. by case_decide.
Qed.

(** X14: counts can only go down along a path.  On a well-formed object, for
    either child that [create_split_path] makes of a path, every count
    [find_next_variant_counts] returns for the child is at most the count it
    returns for the parent, for the same variant and the same label. *)
Theorem scan_counts_shrink_along_a_path
    (self : LOCAL_API) (parent child : list string * list Z) (X : string)
    (ws ws' : list (gmap string nat)) :
  rows_aligned self → popu_aligned self → popu_known self →
  child = (create_split_path parent X).1 ∨ child = (create_split_path parent X).2 →
  find_next_variant_counts self parent = Ok ws →
  find_next_variant_counts self child = Ok ws' →
  ∀ j p, j < length (variant_name_list self) → p ∈ ancestry_list self →
    ∃ w w' n n', ws !! j = Some w ∧ ws' !! j = Some w' ∧
                 w !! p = Some n ∧ w' !! p = Some n' ∧ n' ≤ n.
Proof.
  intros Hrows Hlen Hknown Hchild Hws Hws' j p Hj Hp.
  assert (∃ ign, find_ignore_rows self parent = Ok ign) as [ign Hign].
  { unfold find_next_variant_counts in Hws.
    apply bind_Ok_inv in Hws as (ign & ? & _). by exists ign. }
  assert (∃ ign', find_ignore_rows self child = Ok ign') as [ign' Hign'].
  { unfold find_next_variant_counts in Hws'.
    apply bind_Ok_inv in Hws' as (ign' & ? & _). by exists ign'. }
  rewrite (find_next_variant_counts_Ok self parent ign) in Hws by done.
  rewrite (find_next_variant_counts_Ok self child ign') in Hws' by done.
  injection Hws as <-. injection Hws' as <-.
  destruct (lookup_lt_is_Some_2 (variant_name_list self) j Hj) as [Y HY].
  assert (∀ i, i ∈ ign → i ∈ ign') as Hsub.
  { assert (∃ d, child = (parent.1 ++ [X], parent.2 ++ [d])) as [d ->]
      by (destruct Hchild as [->| ->]; by eexists).
    destruct (zip_snoc parent.1 parent.2 X d) as (c & Hzip & _).
    unfold find_ignore_rows in Hign, Hign'. simpl in Hign'.
    rewrite Hzip, for_each_snoc, Hign in Hign'. simpl in Hign'.
    apply ignore_constraint_Ok in Hign' as (_ & [k ->] & _).
    intros i Hi. set_solver. }
  eexists _, _, _, _. rewrite !list_lookup_imap, HY. simpl.
  rewrite !counts_where_lookup, !decide_True by done.
  split_and!; [done..|]. unfold eligible. rewrite !list_filter_filter.
  apply length_filter_mono. naive_solver.
Qed.

(** ** Missing keys, exactly *)

Lemma for_each_Ok_all_inv {A S} (Inv : S → Prop) (f : S → A → result S) l s s' :
  (∀ s a s', Inv s → f s a = Ok s' → Inv s') →
  Inv s → for_each f l s = Ok s' →
  Forall (λ a, ∃ s0, Inv s0 ∧ is_Ok (f s0 a)) l.
Proof.
  intros Hstep. revert s. induction l as [|a l IH]; intros s Hs; simpl;
    [by constructor|].
  intros (s1 & H1 & H2)%bind_Ok_inv. constructor.
  - exists s. split; [done|]. by exists s1.
  - apply (IH s1); [by eapply Hstep|done].
Qed.

(** X15: on an aligned matrix with one label per row, with a path on which
    the filter returns and a known candidate, [split_subset] raises
    [KeyError] exactly when the label of some eligible row is missing from
    [ancestry_list], and returns otherwise: no other error is left. *)
Theorem split_subset_KeyError_iff
    (self : LOCAL_API) (node : Node) (X : string) (ign : list nat) :
  rows_aligned self → popu_aligned self →
  X ∈ variant_name_list self → X ≠ "" →
  find_ignore_rows self (split_path node) = Ok ign →
  (split_subset self node (Some X) = Err KeyError ↔
   ∃ row p, row ∈ eligible self ign ∧ popu_list self !! row.1 = Some p ∧
            p ∉ ancestry_list self) ∧
  (is_Ok (split_subset self node (Some X)) ∨
   split_subset self node (Some X) = Err KeyError).
Proof.
  intros Hrows Hlen [i Hi]%index_elem HX Hign.
  unfold split_subset. rewrite Hign. simpl.
  set (Inv := λ dicts : gmap string nat * gmap string nat,
         dom dicts.1 = list_to_set (ancestry_list self) ∧
         dom dicts.2 = list_to_set (ancestry_list self)).
  assert (Hstep : ∀ dicts row dicts', Inv dicts →
            split_row self ign (Some X) dicts row = Ok dicts' → Inv dicts').
  { intros dicts row dicts' [H1 H2] [H1' H2']%split_row_dom. split; congruence. }
  assert (Hstart : Inv (Py.fromkeys (ancestry_list self) 0,
                        Py.fromkeys (ancestry_list self) 0))
    by (split; apply fromkeys_dom).
  assert (Herr : ∀ dicts row e, Inv dicts →
            row ∈ Py.enumerate (variant_list self) →
            split_row self ign (Some X) dicts row = Err e →
            e = KeyError ∧ (row.1 ∉ ign) ∧
            ∃ p, popu_list self !! row.1 = Some p ∧ p ∉ ancestry_list self).
  { intros [w wo] [idx variants] e [Hw Hwo] Hrow%enumerate_elem. simpl in *.
    unfold split_row. case_bool_decide as Hin; [done|].
    destruct (lookup_lt_is_Some_2 (popu_list self) idx) as [p Hp].
    { rewrite Hlen. by eapply lookup_lt_Some. }
    apply getitem_Ok in Hp as Hp'. rewrite Hp'. simpl.
    rewrite truthy_Some, Hi by done. simpl.
    eapply Forall_lookup_1 in Hrows; [|done]. simpl in Hrows.
    destruct (lookup_lt_is_Some_2 variants i) as [v Hv].
    { rewrite Hrows. by eapply index_lt. }
    apply getitem_Ok in Hv as ->. simpl.
    assert (∀ d : gmap string nat, dom d = list_to_set (ancestry_list self) →
              Py.incr d p = Err e → e = KeyError ∧ p ∉ ancestry_list self) as Hincr.
    { intros d Hd. unfold Py.incr. destruct (d !! p) eqn:Hdp; [done|].
      intros [= <-]. split; [done|]. apply not_elem_of_dom in Hdp.
      rewrite Hd in Hdp. by rewrite elem_of_list_to_set in Hdp. }
    case_bool_decide;
      (intros [He|(d & _ & ?)]%bind_Err_inv; [|done]);
      apply Hincr in He as [-> ?]; naive_solver. }
  split.
  - split.
    + intros He. apply (for_each_Err_inv Inv) in He
        as (dicts & [idx variants] & Hdicts & Hrow & He); [|done..].
      destruct (Herr _ _ _ Hdicts Hrow He) as (_ & Hin & p & Hp & Hno).
      exists (idx, variants), p. split_and!; [|done..].
      apply enumerate_elem in Hrow. by apply eligible_elem.
    + intros ([idx variants] & p & [Hin Hrow]%eligible_elem & Hp & Hno). simpl in *.
      destruct (for_each _ _ _) as [dicts|e] eqn:Hres.
      * exfalso. apply (for_each_Ok_all_inv Inv) in Hres; [|done..].
        rewrite Forall_forall in Hres.
        destruct (Hres (idx, variants)) as ([w wo] & [Hw Hwo] & dicts' & Hok);
          [by apply enumerate_elem|].
        revert Hok. unfold split_row. rewrite bool_decide_eq_false_2 by done.
        apply getitem_Ok in Hp as Hp'. rewrite Hp'. simpl.
        rewrite truthy_Some, Hi by done. simpl.
        assert (∀ d : gmap string nat, dom d = list_to_set (ancestry_list self) →
                  Py.incr d p = Err KeyError) as Hincr.
        { intros d Hd. unfold Py.incr.
          destruct (d !! p) eqn:Hdp; [|done]. apply elem_of_dom_2 in Hdp.
          rewrite Hd, elem_of_list_to_set in Hdp. done. }
        destruct (Py.getitem variants i); [|done]. simpl in *.
        case_bool_decide; by rewrite Hincr.
      * apply (for_each_Err_inv Inv) in Hres
          as (dicts & row & Hdicts & Hrow' & He); [|done..].
        by destruct (Herr _ _ _ Hdicts Hrow' He) as (-> & _).
  - destruct (for_each _ _ _) as [dicts|e] eqn:Hres; [left; by eexists|right].
    apply (for_each_Err_inv Inv) in Hres
      as (dicts & row & Hdicts & Hrow' & He); [|done..].
    by destruct (Herr _ _ _ Hdicts Hrow' He) as (-> & _).
Qed.

(** ** Reading the mapping file *)

Lemma line_entry_Some line :
  is_Some (line_entry line) ↔ 6 < length (Py.split_tab line).
Proof.
  unfold line_entry, line_id, line_population. split.
  - intros [[indiv_id population] H].
    destruct (Py.split_tab line !! 1) as [a|]; [|done]. simpl in H.
    destruct (Py.split_tab line !! 6) as [b|] eqn:Hb; [|done].
    by eapply lookup_lt_Some.
  - intros Hlen.
    destruct (lookup_lt_is_Some_2 (Py.split_tab line) 1) as [a ->]; [lia|].
    destruct (lookup_lt_is_Some_2 (Py.split_tab line) 6) as [b ->]; [lia|].
    by eexists.
Qed.

(** One line: what [read_line] does with the pair it reads. *)
Lemma read_line_entry variant_dict self line :
  match line_entry line with
  | Some (indiv_id, population) =>
      ∃ self', read_line variant_dict self line = Ok self' ∧
        variant_name_list self' = variant_name_list self ∧
        ancestry_list self' = ancestry_list self ∧
        ancestry_dict self' = <[indiv_id := population]> (ancestry_dict self) ∧
        indiv_list self' =
          indiv_list self ++ (if variant_dict !! indiv_id is Some _ then [indiv_id] else []) ∧
        popu_list self' =
          popu_list self ++ (if variant_dict !! indiv_id is Some _ then [population] else []) ∧
        variant_list self' =
          variant_list self ++ option_list (variant_dict !! indiv_id)
  | None => read_line variant_dict self line = Err IndexError
  end.
Proof.
  unfold line_entry, line_id, line_population, read_line, Py.getitem.
  destruct (Py.split_tab line !! 1) as [indiv_id|]; [|done]. simpl.
  destruct (Py.split_tab line !! 6) as [population|]; [|done]. simpl.
  destruct (variant_dict !! indiv_id) as [row|]; eexists; split; try done;
    simpl; by rewrite ?app_nil_r.
Qed.

Section mapping.
Variable variant_dict : gmap string (list Z).

Lemma read_lines_content lines self :
  Forall (λ line, is_Some (line_entry line)) lines →
  ∃ self', for_each (read_line variant_dict) lines self = Ok self' ∧
    variant_name_list self' = variant_name_list self ∧
    ancestry_dict self' =
      foldl (λ d entry, <[entry.1 := entry.2]> d) (ancestry_dict self)
            (omap line_entry lines) ∧
    indiv_list self' = indiv_list self ++ (kept_entries variant_dict (omap line_entry lines)).*1 ∧
    popu_list self' = popu_list self ++ (kept_entries variant_dict (omap line_entry lines)).*2 ∧
    variant_list self' =
      variant_list self ++
      omap (λ entry, variant_dict !! entry.1) (kept_entries variant_dict (omap line_entry lines)).
Proof.
  intros Hlines. revert self.
  induction Hlines as [|line lines [[indiv_id population] Hline] _ IH]; intros self.
  - exists self. simpl. by rewrite !app_nil_r.
  - pose proof (read_line_entry variant_dict self line) as H1. rewrite Hline in H1.
    destruct H1 as (self1 & H1 & Hn1 & _ & Hd1 & Hi1 & Hp1 & Hv1).
    destruct (IH self1) as (self' & H2 & Hn2 & Hd2 & Hi2 & Hp2 & Hv2).
    exists self'. cbn [for_each]. rewrite H1. simpl. rewrite Hline. simpl.
    unfold kept_entries in *. rewrite filter_cons. simpl.
    rewrite Hn2, Hd2, Hi2, Hp2, Hv2, Hn1, Hd1, Hi1, Hp1, Hv1.
    split_and!; [done..| | |];
      destruct (variant_dict !! indiv_id) as [row|] eqn:Hrow; simpl;
      rewrite ?decide_True, ?decide_False by (rewrite ?is_Some_alt; done);
      simpl; rewrite ?Hrow, <-?app_assoc, ?app_nil_r; done.
Qed.

Lemma read_lines_short lines self :
  Exists (λ line, line_entry line = None) lines →
  for_each (read_line variant_dict) lines self = Err IndexError.
Proof.
  intros Hshort. revert self.
  induction Hshort as [line lines Hline|line lines _ IH]; intros self;
    cbn [for_each]; pose proof (read_line_entry variant_dict self line) as H1.
  - rewrite Hline in H1. by rewrite H1.
  - destruct (line_entry line) as [[indiv_id population]|].
    + destruct H1 as (self1 & -> & _). apply IH.
    + by rewrite H1.
Qed.

End mapping.

(** X16: [read_user_mappings] skips the first line and needs seven
    tab-separated fields on every other line.  An empty file raises
    [StopIteration]; when every line after the header has at least seven
    fields the call returns; when some line has fewer it raises
    [IndexError], and no object is returned. *)
Theorem read_user_mappings_returns_iff
    (self : LOCAL_API) (variant_dict : gmap string (list Z))
    (header : string) (lines : list string) :
  read_user_mappings self variant_dict [] = Err StopIteration ∧
  (Forall (λ line, 6 < length (Py.split_tab line)) lines →
   is_Ok (read_user_mappings self variant_dict (header :: lines))) ∧
  (Exists (λ line, length (Py.split_tab line) ≤ 6) lines →
   read_user_mappings self variant_dict (header :: lines) = Err MalformedMapping).
Proof.
  split_and!; [done| |].
  - intros Hlines. unfold read_user_mappings.
    destruct (read_lines_content variant_dict lines self) as (self' & -> & _).
    { eapply Forall_impl; [exact Hlines|]. intros line. by rewrite line_entry_Some. }
    by eexists.
  - intros Hshort. unfold read_user_mappings.
    rewrite read_lines_short; [done|].
    eapply Exists_impl; [exact Hshort|]. intros line Hlen. simpl in Hlen.
    destruct (line_entry line) eqn:Hentry; [|done].
    assert (6 < length (Py.split_tab line)) by (apply line_entry_Some; eauto). lia.
Qed.

(** X17: what [read_user_mappings] appends.  When it returns, every line
    after the header gave a pair (id, population); [indiv_list], [popu_list]
    and [variant_list] have grown, in file order, by the id, the population
    and the genotype row of exactly the lines whose id is a key of
    [variant_dict], so the three lists grow by the same length; the variant
    names are untouched. *)
Theorem read_user_mappings_keeps_genotyped_lines
    (self self' : LOCAL_API) (variant_dict : gmap string (list Z))
    (header : string) (lines : list string) :
  read_user_mappings self variant_dict (header :: lines) = Ok self' →
  let entries := omap line_entry lines in
  let kept := kept_entries variant_dict entries in
  length entries = length lines ∧
  indiv_list self' = indiv_list self ++ kept.*1 ∧
  popu_list self' = popu_list self ++ kept.*2 ∧
  variant_list self' =
    variant_list self ++ omap (λ entry, variant_dict !! entry.1) kept ∧
  length (omap (λ entry, variant_dict !! entry.1) kept) = length kept ∧
  variant_name_list self' = variant_name_list self.
Proof.
  intros Hread.
  assert (Forall (λ line, is_Some (line_entry line)) lines) as Hlines.
  { apply Forall_forall. intros line Hline.
    destruct (line_entry line) eqn:Hentry; [by eexists|].
    unfold read_user_mappings in Hread.
    rewrite read_lines_short in Hread; [done|].
    apply Exists_exists. by exists line. }
  destruct (read_lines_content variant_dict lines self Hlines)
    as (self1 & H1 & Hn & Hd & Hi & Hp & Hv).
  unfold read_user_mappings in Hread. rewrite H1 in Hread. simpl in Hread.
  injection Hread as <-. simpl. split_and!; [|done..| |done].
  - clear -Hlines. induction Hlines as [|line lines [entry Hline] _ IH]; [done|].
    simpl. rewrite Hline. simpl. f_equal. exact IH.
  - unfold kept_entries. generalize (omap line_entry lines) as entries.
    induction entries as [|entry entries IH]; [done|].
    rewrite filter_cons. case_decide as Hkey; [|done].
    simpl. destruct Hkey as [row ->]. simpl. f_equal. exact IH.
Qed.

Lemma leb_Total : Total (λ a b : string, Is_true (String.leb a b)).
Proof.
  intros a b. destruct (String.leb_total a b) as [H|H]; [left|right];
    by apply Is_true_true.
Qed.

Lemma foldl_insert_lookup (entries : list (string * string))
    (d : gmap string string) k :
  foldl (λ d entry, <[entry.1 := entry.2]> d) d entries !! k =
  match last (filter (λ entry, entry.1 = k) entries) with
  | Some entry => Some entry.2
  | None => d !! k
  end.
Proof.
  revert d. induction entries as [|entry entries IH] using rev_ind; intros d;
    [done|].
  rewrite foldl_app, filter_app. simpl. rewrite filter_cons, filter_nil.
  destruct (decide (entry.1 = k)) as [<-|Hne].
  - by rewrite last_snoc, lookup_insert_eq.
  - by rewrite app_nil_r, lookup_insert_ne, IH.
Qed.

(** X18: the catalog of populations.  When [read_user_mappings] returns,
    [ancestry_dict] maps an individual id listed in the file to the population
    of its last line and keeps its old value for an id the file does not
    list; [ancestry_list] holds exactly the populations that are values of
    [ancestry_dict], whether or not the individual has genotype data, each
    once and in ascending order. *)
Theorem read_user_mappings_builds_the_universe
    (self self' : LOCAL_API) (variant_dict : gmap string (list Z))
    (header : string) (lines : list string) :
  read_user_mappings self variant_dict (header :: lines) = Ok self' →
  (∀ indiv_id,
     ancestry_dict self' !! indiv_id =
     match last (filter (λ entry, entry.1 = indiv_id) (omap line_entry lines)) with
     | Some entry => Some entry.2
     | None => ancestry_dict self !! indiv_id
     end) ∧
  (∀ p, p ∈ ancestry_list self' ↔
        ∃ indiv_id, ancestry_dict self' !! indiv_id = Some p) ∧
  NoDup (ancestry_list self') ∧
  Sorted (λ a b : string, Is_true (String.leb a b)) (ancestry_list self').
Proof.
  intros Hread.
  assert (Forall (λ line, is_Some (line_entry line)) lines) as Hlines.
  { apply Forall_forall. intros line Hline.
    destruct (line_entry line) eqn:Hentry; [by eexists|].
    unfold read_user_mappings in Hread.
    rewrite read_lines_short in Hread; [done|].
    apply Exists_exists. by exists line. }
  destruct (read_lines_content variant_dict lines self Hlines)
    as (self1 & H1 & Hn & Hd & _).
  unfold read_user_mappings in Hread. rewrite H1 in Hread. simpl in Hread.
  injection Hread as <-. simpl. split_and!.
  - intros indiv_id. rewrite Hd. apply foldl_insert_lookup.
  - intros p. rewrite sorted_set_elem, list_elem_of_fmap. split.
    + intros ([indiv_id p'] & -> & Hin%elem_of_map_to_list). by exists indiv_id.
    + intros [indiv_id Hp]. exists (indiv_id, p). split; [done|].
      by apply elem_of_map_to_list.
  - unfold Py.sorted_set. rewrite merge_sort_Permutation. apply NoDup_elements.
  - unfold Py.sorted_set. apply (Sorted_merge_sort _ (Total0 := leb_Total)).
Qed.

(** ** Building the matrix *)

Lemma filter_sample_names s (calls : list Call) :
  length (filter (λ c, sample c = s) calls) =
  length (filter (λ x, x = s) (sample <$> calls)).
Proof.
  induction calls as [|c calls IH]; [done|].
  rewrite fmap_cons, !filter_cons. case_decide; simpl; by rewrite IH.
Qed.

Lemma filter_eq_NoDup (s : string) l :
  NoDup l → s ∈ l → length (filter (λ x, x = s) l) = 1.
Proof.
  induction 1 as [|x l Hx Hnd IH]; [by intros ?%elem_of_nil|].
  rewrite filter_cons. intros Hs. destruct (decide (x = s)) as [->|Hne].
  - simpl. rewrite filter_none; [done|]. apply Forall_forall. naive_solver.
  - apply IH. by apply elem_of_cons in Hs as [->|?].
Qed.

Lemma calls_of_sample_length S variants s :
  NoDup S → Forall (λ variant, sample_names variant ≡ₚ S) variants → s ∈ S →
  length (filter (λ c, sample c = s) (mjoin (samples <$> variants)))
  = length variants.
Proof.
  intros Hnd Hall Hs. induction Hall as [|variant variants Hv _ IH]; [done|].
  rewrite fmap_cons. simpl. rewrite filter_app, length_app, IH.
  rewrite filter_sample_names. fold (sample_names variant).
  rewrite filter_eq_NoDup; [done| |]; by rewrite Hv.
Qed.

Lemma genotype_bit_is_bit gt : genotype_bit gt = 0%Z ∨ genotype_bit gt = 1%Z.
Proof. unfold genotype_bit. case_bool_decide; auto. Qed.

(** X19: the dictionary of [create_variant_dict].  The names are extended by
    one name per record, in order; a sample is a key exactly when some record
    has a call for it; every entry of every row is [0] or [1]; and when
    every record calls the same samples, each once, every row has one entry
    per record. *)
Theorem create_variant_dict_rows
    (names : list string) (variants : list Variant) :
  (create_variant_dict names variants).1 = names ++ (variant_name <$> variants) ∧
  (∀ s, s ∈ dom (create_variant_dict names variants).2 ↔
        ∃ variant, variant ∈ variants ∧ s ∈ sample_names variant) ∧
  (∀ s row, (create_variant_dict names variants).2 !! s = Some row →
     Forall (λ v : Z, v = 0%Z ∨ v = 1%Z) row) ∧
  (∀ S, NoDup S → Forall (λ variant, sample_names variant ≡ₚ S) variants →
     ∀ s row, (create_variant_dict names variants).2 !! s = Some row →
       length row = length variants).
Proof.
  rewrite create_variant_dict_unfold. simpl.
  assert (Hcalls : ∀ s,
    filter (λ c, sample c = s) (mjoin (samples <$> variants)) ≠ [] ↔
    ∃ variant, variant ∈ variants ∧ s ∈ sample_names variant).
  { intros s. split.
    - intros Hne. destruct (filter _ _) as [|c calls] eqn:Hf; [done|].
      assert (c ∈ filter (λ c, sample c = s) (mjoin (samples <$> variants)))
        as [Hc Hin]%list_elem_of_filter by (rewrite Hf; left).
      apply list_elem_of_join in Hin as (cs & Hin & (variant & -> & Hv)%list_elem_of_fmap).
      exists variant. split; [done|]. unfold sample_names.
      apply list_elem_of_fmap. by exists c.
    - intros (variant & Hv & (c & -> & Hc)%list_elem_of_fmap) Hnil.
      assert (c ∈ filter (λ c', sample c' = sample c) (mjoin (samples <$> variants))) as Hin.
      { apply list_elem_of_filter. split; [done|].
        apply list_elem_of_join. exists (samples variant). split; [done|].
        by apply list_elem_of_fmap_2. }
      rewrite Hnil in Hin. by apply elem_of_nil in Hin. }
  split_and!; [done| | |].
  - intros s. rewrite elem_of_dom, record_calls_lookup, lookup_empty, <-Hcalls.
    case_decide; [|naive_solver]. split; [by intros [? ?]|done].
  - intros s row. rewrite record_calls_lookup, lookup_empty.
    case_decide; [done|]. intros [= <-]. simpl.
    apply Forall_fmap, Forall_forall. intros c _. apply genotype_bit_is_bit.
  - intros S Hnd Hall s row. rewrite record_calls_lookup, lookup_empty.
    case_decide as Hne; [done|]. intros [= <-]. simpl. rewrite length_fmap.
    apply (calls_of_sample_length S); [done..|].
    apply Hcalls in Hne as (variant & Hv & Hs).
    rewrite Forall_forall in Hall. by rewrite <-(Hall variant Hv).
Qed.

(** X20: what [__init__] establishes.  When it returns, the variant names are
    those of the records, none of them empty; labels, ids and rows have the
    same length; every entry of the matrix is [0] or [1]; when every record
    calls the same samples, each once, every row has one entry per variant
    name; and when no individual id is listed twice in the mapping file,
    every label of a row is in [ancestry_list]. *)
Theorem init_establishes_the_data_model
    (variants : list Variant) (file : list string) (self : LOCAL_API) :
  init variants file = Ok self →
  variant_name_list self = variant_name <$> variants ∧
  ("" ∉ variant_name_list self) ∧
  (popu_aligned self ∧ length (indiv_list self) = length (popu_list self)) ∧
  bits self ∧
  (∀ S, NoDup S → Forall (λ variant, sample_names variant ≡ₚ S) variants →
     rows_aligned self) ∧
  (NoDup (omap line_id (tail file)) → popu_known self).
Proof.
  intros Hinit.
  destruct (init_invariants _ _ _ Hinit) as (Hnames & Hempty & Hlen & Hknown).
  unfold init in Hinit. rewrite create_variant_dict_unfold in Hinit.
  destruct file as [|header lines]; [done|].
  set (vd := foldl record_call ∅ (mjoin (samples <$> variants))) in *.
  assert (Forall (λ line, is_Some (line_entry line)) lines) as Hlines.
  { apply Forall_forall. intros line Hline.
    destruct (line_entry line) eqn:Hentry; [by eexists|].
    unfold read_user_mappings in Hinit.
    rewrite read_lines_short in Hinit; [done|].
    apply Exists_exists. by exists line. }
  destruct (read_lines_content vd lines
              {| variant_list := []; indiv_list := []; popu_list := [];
                 variant_name_list := [] ++ (variant_name <$> variants);
                 ancestry_dict := ∅; ancestry_list := [] |} Hlines)
    as (self1 & H1 & _ & _ & Hi & Hp & Hv).
  unfold read_user_mappings in Hinit. rewrite H1 in Hinit. simpl in Hinit.
  injection Hinit as <-. simpl in *.
  assert (Hrows : ∀ row, row ∈ variant_list self1 → ∃ s, vd !! s = Some row).
  { intros row. rewrite Hv. intros ([s p] & _ & Hrow)%list_elem_of_omap. eauto. }
  split_and!; [done|done|done|by rewrite Hi, Hp, !length_fmap| | |done].
  - unfold bits. simpl. apply Forall_forall. intros row [s Hrow]%Hrows.
    unfold vd in Hrow. rewrite record_calls_lookup, lookup_empty in Hrow.
    case_decide; [done|]. injection Hrow as <-.
    apply Forall_fmap, Forall_forall. intros c _. apply genotype_bit_is_bit.
  - intros S Hnd Hall. unfold rows_aligned. simpl.
    apply Forall_forall. intros row [s Hrow]%Hrows.
    unfold vd in Hrow. rewrite record_calls_lookup, lookup_empty in Hrow.
    case_decide as Hne; [done|]. injection Hrow as <-.
    rewrite Hnames, !length_fmap. apply (calls_of_sample_length S); [done..|].
    destruct (filter _ _) as [|c calls] eqn:Hf; [done|].
    assert (c ∈ filter (λ c, sample c = s) (mjoin (samples <$> variants)))
      as [Hc Hin]%list_elem_of_filter by (rewrite Hf; left).
    apply list_elem_of_join in Hin as (cs & Hin & (variant & -> & Hvar)%list_elem_of_fmap).
    rewrite Forall_forall in Hall. rewrite <-(Hall variant Hvar).
    unfold sample_names. apply list_elem_of_fmap. by exists c.
Qed.

(** ** Paths and candidates *)

(** X21: how [create_split_path] pairs the new entry.  When the parent has
    as many names as directions, so has each child, and each child pairs the
    parent's constraints followed by the new variant with direction [1],
    respectively [0].  When the parent has more names than directions, the new
    direction is paired with the parent's first unpaired name instead, and the
    new variant is not paired at all. *)
Theorem create_split_path_pairs
    (parent : list string * list Z) (X : string) :
  (length parent.1 = length parent.2 →
   length (create_split_path parent X).1.1 = length (create_split_path parent X).1.2 ∧
   length (create_split_path parent X).2.1 = length (create_split_path parent X).2.2 ∧
   zip (create_split_path parent X).1.1 (create_split_path parent X).1.2
   = zip parent.1 parent.2 ++ [(X, 1%Z)] ∧
   zip (create_split_path parent X).2.1 (create_split_path parent X).2.2
   = zip parent.1 parent.2 ++ [(X, 0%Z)]) ∧
  (∀ unpaired, parent.1 !! length parent.2 = Some unpaired →
   zip (create_split_path parent X).1.1 (create_split_path parent X).1.2
   = zip parent.1 parent.2 ++ [(unpaired, 1%Z)] ∧
   zip (create_split_path parent X).2.1 (create_split_path parent X).2.2
   = zip parent.1 parent.2 ++ [(unpaired, 0%Z)]).
Proof.
  destruct parent as [names directions]. simpl. split.
  - intros Hlen. rewrite !length_app, Hlen. split_and!; [done..| |];
      by rewrite zip_with_app.
  - intros unpaired Hun.
    assert (∀ d : Z, zip (names ++ [X]) (directions ++ [d])
                     = zip names directions ++ [(unpaired, d)]) as Hzip;
      [|by rewrite !Hzip].
    intros d. apply lookup_lt_Some in Hun as Hlt.
    rewrite <-(take_drop (length directions) names) at 1.
    rewrite <-app_assoc, zip_with_app by (rewrite length_take; lia).
    rewrite zip_with_take_l. f_equal.
    rewrite (drop_S _ _ _ Hun). simpl. f_equal. apply zip_with_nil_r.
Qed.

(** X22: the distribution at a node does not depend on the candidate.  On a
    well-formed object, for one path and any two variant names, the two
    mappings [split_subset] returns add up, label by label, to the same
    mapping. *)
Theorem node_distribution_ignores_the_candidate
    (self : LOCAL_API) (node : Node) (X Y : string)
    (w wo w' wo' : gmap string nat) :
  rows_aligned self → popu_aligned self → popu_known self →
  X ∈ variant_name_list self → X ≠ "" →
  Y ∈ variant_name_list self → Y ≠ "" →
  split_subset self node (Some X) = Ok (w, wo) →
  split_subset self node (Some Y) = Ok (w', wo') →
  add_counts w wo = add_counts w' wo'.
Proof.
  intros Hrows Hlen Hknown [i Hi]%index_elem HX [k Hk]%index_elem HY HsX HsY.
  assert (∃ ign, find_ignore_rows self (split_path node) = Ok ign) as [ign Hign].
  { unfold split_subset in HsX. apply bind_Ok_inv in HsX as (ign & ? & _).
    by exists ign. }
  rewrite (split_subset_Ok self node X i ign) in HsX by done.
  rewrite (split_subset_Ok self node Y k ign) in HsY by done.
  injection HsX as <- <-. injection HsY as <- <-.
  apply map_eq. intros p. unfold add_counts, counts_where.
  rewrite !lookup_union_with.
  rewrite !tally_fromkeys_lookup by by apply labels_where_known.
  case_decide; [|done]. simpl. f_equal. by rewrite !labels_where_split.
Qed.

(** * Instances of the further properties *)

Lemma find_ignore_rows_flags_violations_witness :
  2 ∈ [2; 3] ↔
  ∃ variants c, variant_list scenario !! 2 = Some variants ∧
                c ∈ zip ["V1"] [1%Z] ∧ ¬ satisfies scenario c variants.
Proof.
  destruct (find_ignore_rows_flags_violations scenario (["V1"], [1%Z]) [2; 3])
    as [Hflags _]; [unfold bits; concrete|concrete|]. exact (Hflags 2).
Defined.

Lemma find_ignore_rows_returns_iff_witness :
  is_Ok (find_ignore_rows scenario (["V1"; "V2"], [1; 0]%Z)) ↔
  Forall (λ c, c.1 ∈ variant_name_list scenario) (zip ["V1"; "V2"] [1; 0]%Z).
Proof.
  destruct (find_ignore_rows_returns_iff scenario (["V1"; "V2"], [1; 0]%Z))
    as [Hiff _]; [concrete|]. exact Hiff.
Defined.

Lemma unpaired_path_entries_are_ignored_witness :
  find_ignore_rows scenario (["V1"] ++ ["V9"], [1%Z])
  = find_ignore_rows scenario (["V1"], [1%Z]).
Proof.
  destruct (unpaired_path_entries_are_ignored
              scenario ["V1"] ["V9"] [1%Z] [0%Z] (Some "V2"))
    as [[Hnames _] _]; [concrete|]. exact Hnames.
Defined.

Lemma only_the_set_of_constraints_matters_witness :
  split_subset scenario {| split_path := (["V1"; "V2"], [1; 0]%Z) |} (Some "V2")
  = split_subset scenario {| split_path := (["V2"; "V1"; "V2"], [0; 1; 0]%Z) |}
      (Some "V2").
Proof.
  destruct (only_the_set_of_constraints_matters
              scenario (["V1"; "V2"], [1; 0]%Z) (["V2"; "V1"; "V2"], [0; 1; 0]%Z)
              (Some "V2")) as [Hsame _];
    [unfold bits; concrete|concrete| |exact Hsame].
  intros c. simpl. set_solver.
Defined.

Lemma contradictory_path_excludes_every_row_witness :
  eligible scenario [2; 3; 0; 1] = [] ∧
  split_subset scenario {| split_path := (["V1"; "V1"], [1; 0]%Z) |} (Some "V9") =
    Ok (Py.fromkeys (ancestry_list scenario) 0, Py.fromkeys (ancestry_list scenario) 0).
Proof.
  destruct (contradictory_path_excludes_every_row
              scenario {| split_path := (["V1"; "V1"], [1; 0]%Z) |}
              "V1" 1%Z 0%Z [2; 3; 0; 1] (Some "V9"))
    as (_ & Hnone & Hzero & _); [concrete| | |done|by split].
  - simpl. set_solver.
  - simpl. set_solver.
Defined.

Lemma children_split_the_eligible_rows_witness :
  eligible scenario [2; 3; 0] =
    filter (λ row : nat * list Z, row.2 !! 1 = Some 1%Z) (eligible scenario [2; 3]) ∧
  eligible scenario [2; 3; 1] =
    filter (λ row : nat * list Z, row.2 !! 1 = Some 0%Z) (eligible scenario [2; 3]) ∧
  length (eligible scenario [2; 3; 0]) + length (eligible scenario [2; 3; 1])
  = length (eligible scenario [2; 3]).
Proof.
  destruct (children_split_the_eligible_rows
              scenario (["V1"], [1%Z]) "V2" 1 [2; 3] [2; 3; 0] [2; 3; 1])
    as (Hw & Hwo & Hsum); [concrete..|].
  split_and!; [exact Hw|exact Hwo|]. apply Hsum; unfold bits; concrete.
Defined.

Lemma split_branch_is_child_distribution_witness :
  (∃ w1 wo1,
     split_subset scenario {| split_path := (create_split_path ([], []) "V1").1 |}
       (Some "V2") = Ok (w1, wo1) ∧
     counts [("A", 2); ("B", 0)] = add_counts w1 wo1) ∧
  (∃ w0 wo0,
     split_subset scenario {| split_path := (create_split_path ([], []) "V1").2 |}
       (Some "V2") = Ok (w0, wo0) ∧
     counts [("A", 0); ("B", 2)] = add_counts w0 wo0).
Proof.
  destruct (split_branch_is_child_distribution
              scenario ([], []) "V1" "V2"
              (counts [("A", 2); ("B", 0)]) (counts [("A", 0); ("B", 2)]))
    as [Hw Hwo]; [concrete..|by vm_compute|].
  split; [exact Hw|]. apply Hwo. unfold bits. concrete.
Defined.

Lemma split_subset_keeps_the_universe_witness :
  dom (counts [("A", 1); ("B", 0)] : gmap string nat)
  = list_to_set (ancestry_list scenario) ∧
  dom (counts [("A", 1); ("B", 0)] : gmap string nat)
  = list_to_set (ancestry_list scenario).
Proof.
  apply (split_subset_keeps_the_universe
           scenario {| split_path := (["V1"], [1%Z]) |} (Some "V2")).
  by vm_compute.
Defined.

Lemma find_next_variant_counts_shape_witness :
  length [counts [("A", 2); ("B", 0)]; counts [("A", 1); ("B", 0)]]
  = length (variant_name_list scenario) ∧
  Forall (λ d : gmap string nat, dom d = list_to_set (ancestry_list scenario))
         [counts [("A", 2); ("B", 0)]; counts [("A", 1); ("B", 0)]].
Proof.
  apply (find_next_variant_counts_shape scenario (["V1"], [1%Z])).
  by vm_compute.
Defined.

Lemma known_labels_never_miss_a_key_witness :
  split_subset scenario {| split_path := (["V1"], [1%Z]) |} (Some "V2")
  ≠ Err KeyError ∧
  find_next_variant_counts scenario (["V1"], [1%Z]) ≠ Err KeyError.
Proof.
  apply (known_labels_never_miss_a_key
           scenario {| split_path := (["V1"], [1%Z]) |} (Some "V2")).
  concrete.
Defined.

Lemma count_variants_total_and_bounds_witness :
  (∃ my_dict, count_variants scenario = Ok my_dict ∧
              total my_dict = ones (variant_list scenario)) ∧
  count_variants overlong = Err IndexError.
Proof.
  destruct (count_variants_total_and_bounds scenario) as [Hreturns _].
  destruct (count_variants_total_and_bounds overlong) as [_ Hraises].
  split.
  - apply Hreturns. simpl.
    repeat (apply Forall_cons; split); [..|by constructor];
      intros i Hi%lookup_lt_Some; simpl in Hi; lia.
  - apply Hraises. simpl. apply Exists_cons_hd. exists 2. split; [done|simpl; lia].
Defined.

Lemma root_scan_totals_are_frequencies_witness :
  ∃ w_variant_list my_dict w,
    find_next_variant_counts scenario ([], []) = Ok w_variant_list ∧
    count_variants scenario = Ok my_dict ∧
    w_variant_list !! 0 = Some w ∧
    total w = default 0 (my_dict !! "V1").
Proof.
  apply (root_scan_totals_are_frequencies scenario 0 "V1"); concrete.
Defined.

Lemma scan_counts_shrink_along_a_path_witness :
  ∃ w w' n n',
    [counts [("A", 2); ("B", 0)]; counts [("A", 1); ("B", 1)]] !! 1 = Some w ∧
    [counts [("A", 2); ("B", 0)]; counts [("A", 1); ("B", 0)]] !! 1 = Some w' ∧
    w !! "B" = Some n ∧ w' !! "B" = Some n' ∧ n' ≤ n.
Proof.
  apply (scan_counts_shrink_along_a_path
           scenario ([], []) (["V1"], [1%Z]) "V1");
    first [concrete | by left | by vm_compute | simpl; lia].
Defined.

Lemma split_subset_KeyError_iff_witness :
  (split_subset scenario {| split_path := (["V1"], [1%Z]) |} (Some "V2")
   = Err KeyError ↔
   ∃ row p, row ∈ eligible scenario [2; 3] ∧
            popu_list scenario !! row.1 = Some p ∧ p ∉ ancestry_list scenario) ∧
  (is_Ok (split_subset scenario {| split_path := (["V1"], [1%Z]) |} (Some "V2")) ∨
   split_subset scenario {| split_path := (["V1"], [1%Z]) |} (Some "V2")
   = Err KeyError).
Proof.
  apply (split_subset_KeyError_iff
           scenario {| split_path := (["V1"], [1%Z]) |} "V2" [2; 3]); concrete.
Defined.

Lemma read_user_mappings_returns_iff_witness :
  is_Ok (read_user_mappings unread_object {[ "HG1" := [1%Z] ]} plain_mapping) ∧
  read_user_mappings unread_object {[ "HG1" := [1%Z] ]} short_mapping
  = Err MalformedMapping.
Proof.
  destruct (read_user_mappings_returns_iff unread_object {[ "HG1" := [1%Z] ]}
              (tsv ["family"; "individual"; "c2"; "c3"; "c4"; "c5"; "population"; "c7"])
              [tsv ["F1"; "HG1"; "0"; "0"; "1"; "0"; "GBR"; "x"]])
    as (_ & Hreturns & _).
  destruct (read_user_mappings_returns_iff unread_object {[ "HG1" := [1%Z] ]}
              (tsv ["family"; "individual"; "c2"; "c3"; "c4"; "c5"; "population"; "c7"])
              [tsv ["F1"; "HG1"; "0"]])
    as (_ & _ & Hraises).
  split.
  - apply Hreturns. repeat constructor; vm_compute; lia.
  - apply Hraises. apply Exists_cons_hd. vm_compute. lia.
Defined.

Lemma read_user_mappings_keeps_genotyped_lines_witness :
  indiv_list plain_object =
    indiv_list unread_object ++
    (kept_entries {[ "HG1" := [1%Z] ]} (omap line_entry (tail plain_mapping))).*1 ∧
  popu_list plain_object =
    popu_list unread_object ++
    (kept_entries {[ "HG1" := [1%Z] ]} (omap line_entry (tail plain_mapping))).*2.
Proof.
  destruct (read_user_mappings_keeps_genotyped_lines
              unread_object plain_object {[ "HG1" := [1%Z] ]}
              (tsv ["family"; "individual"; "c2"; "c3"; "c4"; "c5"; "population"; "c7"])
              [tsv ["F1"; "HG1"; "0"; "0"; "1"; "0"; "GBR"; "x"]])
    as (_ & Hids & Hlabels & _); [by vm_compute|].
  split; [exact Hids|exact Hlabels].
Defined.

Lemma read_user_mappings_builds_the_universe_witness :
  (∀ p, p ∈ ancestry_list plain_object ↔
        ∃ indiv_id, ancestry_dict plain_object !! indiv_id = Some p) ∧
  NoDup (ancestry_list plain_object) ∧
  Sorted (λ a b : string, Is_true (String.leb a b)) (ancestry_list plain_object).
Proof.
  destruct (read_user_mappings_builds_the_universe
              unread_object plain_object {[ "HG1" := [1%Z] ]}
              (tsv ["family"; "individual"; "c2"; "c3"; "c4"; "c5"; "population"; "c7"])
              [tsv ["F1"; "HG1"; "0"; "0"; "1"; "0"; "GBR"; "x"]])
    as (_ & Hvalues & Hnd & Hsorted); [by vm_compute|].
  by split_and!.
Defined.

Lemma create_variant_dict_rows_witness :
  Forall (λ v : Z, v = 0%Z ∨ v = 1%Z) [1%Z] ∧ length [1%Z] = length one_variant.
Proof.
  destruct (create_variant_dict_rows [] one_variant) as (_ & _ & Hbits & Hwidth).
  split.
  - apply (Hbits "HG1"). by vm_compute.
  - apply (Hwidth ["HG1"]) with "HG1".
    + apply NoDup_singleton.
    + by repeat constructor.
    + by vm_compute.
Defined.

Lemma init_establishes_the_data_model_witness :
  variant_name_list plain_object = variant_name <$> one_variant ∧
  bits plain_object ∧ rows_aligned plain_object ∧ popu_known plain_object.
Proof.
  destruct (init_establishes_the_data_model one_variant plain_mapping plain_object)
    as (Hnames & _ & _ & Hbits & Hrows & Hknown); [by vm_compute|].
  split_and!; [exact Hnames|exact Hbits| |].
  - apply (Hrows ["HG1"]); [apply NoDup_singleton|by repeat constructor].
  - apply Hknown. vm_compute. apply NoDup_singleton.
Defined.

Lemma create_split_path_pairs_witness :
  zip (create_split_path (["V1"], [1%Z]) "V2").1.1
      (create_split_path (["V1"], [1%Z]) "V2").1.2
  = zip ["V1"] [1%Z] ++ [("V2", 1%Z)] ∧
  zip (create_split_path (["V1"; "V3"], [1%Z]) "V2").1.1
      (create_split_path (["V1"; "V3"], [1%Z]) "V2").1.2
  = zip ["V1"; "V3"] [1%Z] ++ [("V3", 1%Z)].
Proof.
  destruct (create_split_path_pairs (["V1"], [1%Z]) "V2") as [Hequal _].
  destruct (create_split_path_pairs (["V1"; "V3"], [1%Z]) "V2") as [_ Hmore].
  split.
  - by destruct Hequal as (_ & _ & Hzip & _).
  - by destruct (Hmore "V3") as [Hzip _].
Defined.

Lemma node_distribution_ignores_the_candidate_witness :
  add_counts (counts [("A", 2); ("B", 0)]) (counts [("A", 0); ("B", 2)])
  = add_counts (counts [("A", 1); ("B", 1)]) (counts [("A", 1); ("B", 1)]).
Proof.
  apply (node_distribution_ignores_the_candidate
           scenario {| split_path := ([], []) |} "V1" "V2");
    first [concrete | by vm_compute].
Defined.
